(** * Workbook state layer of the Insights frontend

    A shallow embedding of the workbook module: the workbook registry
    ([useWorkbook]), the share-permission mappings, the confirmation-gated
    removal of queries, charts and dashboards, the auto-save watcher and the
    linked-query resolver ([getLinkedQueries]).

    Module-level and reactive state is passed explicitly.  Closures handed to
    promises and dialogs are data ([Callback], [OnSuccess]) run by an
    interpreter.  Recursion that may not return carries a bound ([fuel]), and
    [None] stands for a call that has not returned within the bound. *)

From Stdlib Require Import Ascii.
From stdpp Require Import base option list strings gmap pretty.

Set Default Proof Using "Type".

(** * Model *)

(** ** Workbook registry *)

Module Registry.

(** The object returned by [makeWorkbook].  [ref] is the identity of the
    object (two objects are the same object when their [ref]s agree);
    [name] is the identifier it was made for. *)
Record Workbook := {
  ref : nat;
  name : string;
}.

(** The module-level state: the [workbooks] map and the number of workbook
    objects created so far. *)
Record Session := {
  workbooks : gmap string Workbook;
  created : nat;
}.

Definition emptySession : Session := {| workbooks := ∅; created := 0 |}.

(** Arguments as callers pass them (route parameters and document names).
    [JsInt n safe] is a number that is a safe integer, one with
    [|n| < 2^53]: these are the integers a number holds exactly, and
    [String] prints them in plain decimal digits.  Other numbers are not
    among these values. *)
Inductive JsValue :=
  | JsStr (s : string)
  | JsInt (n : Z) (safe : Is_true (Z.abs n <? 2 ^ 53)%Z)
  | JsBool (b : bool)
  | JsNull
  | JsUndefined.

(** [String(v)] on these values. *)
Definition jsString (v : JsValue) : string :=
  match v with
  | JsStr s => s
  | JsInt n _ => pretty n
  | JsBool true => "true"
  | JsBool false => "false"
  | JsNull => "null"
  | JsUndefined => "undefined"
  end.

(** Every cached object was made for its key, and no two keys share an
    object. *)
Definition well_keyed (σ : Session) : Prop :=
  (∀ k w, workbooks σ !! k = Some w → name w = k ∧ ref w < created σ) ∧
  (∀ k1 k2 w1 w2, workbooks σ !! k1 = Some w1 → workbooks σ !! k2 = Some w2 →
                  ref w1 = ref w2 → k1 = k2).

Section registry.
(** The coercion [String(name)] of the first line of [useWorkbook]. *)
Context {Value : Type}.
Variable JsString : Value → string.

(** [makeWorkbook] builds a new object; it does not touch [workbooks]. *)
Definition makeWorkbook (name : string) (σ : Session) : Workbook * Session :=
  ({| ref := created σ; name := name |},
   {| workbooks := workbooks σ; created := S (created σ) |}).

Definition useWorkbook (arg : Value) (σ : Session) : Workbook * Session :=
  let name := JsString arg in
  match workbooks σ !! name with
  | Some existingWorkbook => (existingWorkbook, σ)
  | None =>
      let '(workbook, σ') := makeWorkbook name σ in
      (workbook,
       {| workbooks := <[name := workbook]> (workbooks σ');
          created := created σ' |})
  end.

(** The session after a series of requests. *)
Definition requests (args : list Value) (σ : Session) : Session :=
  foldl (λ σ arg, (useWorkbook arg σ).2) σ args.

End registry.
End Registry.

(** ** Share permissions *)

Module Share.

(** The UI role, ['view' | 'edit']; [undefined] is [None]. *)
Inductive Access := view | edit.

#[global] Instance Access_eq_dec : EqDecision Access.
Proof. solve_decision. Defined.

(** A row of [permissions.user_permissions] as the backend returns it. *)
Record BackendPermission := {
  user : string;
  user_full_name : string;
  read : bool;
  write : bool;
}.

(** [WorkbookUserPermission] *)
Record WorkbookUserPermission := {
  email : string;
  full_name : string;
  access : option Access;
}.

(** A row of the [user_permissions] argument sent by
    [updateSharePermissions]. *)
Record PermissionUpdate := {
  upd_user : string;
  upd_read : bool;
  upd_write : bool;
}.

(** [p.read ? (p.write ? 'edit' : 'view') : undefined] *)
Definition accessOfFlags (read write : bool) : option Access :=
  if read then (if write then Some edit else Some view) else None.

(** [read: p.access === 'view', write: p.access === 'edit'] *)
Definition flagsOfAccess (a : option Access) : bool * bool :=
  (bool_decide (a = Some view), bool_decide (a = Some edit)).

(** The mapping inside [getSharePermissions]. *)
Definition toUserPermission (p : BackendPermission) : WorkbookUserPermission :=
  {| email := user p;
     full_name := user_full_name p;
     access := accessOfFlags (read p) (write p) |}.

(** The mapping inside [updateSharePermissions]. *)
Definition toPermissionUpdate (p : WorkbookUserPermission) : PermissionUpdate :=
  {| upd_user := email p;
     upd_read := (flagsOfAccess (access p)).1;
     upd_write := (flagsOfAccess (access p)).2 |}.

(** The row a later [get_share_permissions] returns when the flags are kept
    as they were sent. *)
Definition keptAsSent (name : string) (u : PermissionUpdate) : BackendPermission :=
  {| user := upd_user u; user_full_name := name;
     read := upd_read u; write := upd_write u |}.
End Share.

(** ** Queries, charts and dashboards of a workbook *)

Module Crud.

(** ['query' | 'chart' | 'dashboard'] *)
Inductive EntityType := query | chart | dashboard.

#[global] Instance EntityType_eq_dec : EqDecision EntityType.
Proof. solve_decision. Defined.

Definition typeName (type : EntityType) : string :=
  match type with
  | query => "query"
  | chart => "chart"
  | dashboard => "dashboard"
  end.

(** An entry of [doc.queries], [doc.charts] or [doc.dashboards]; the last
    two fields are set on chart entries only. *)
Record Row := {
  name : string;
  title : string;
  row_query : option string;
  chart_type : option string;
}.

Record Doc := {
  owner : string;
  queries : list Row;
  charts : list Row;
  dashboards : list Row;
}.

Definition rows (type : EntityType) (d : Doc) : list Row :=
  match type with
  | query => queries d
  | chart => charts d
  | dashboard => dashboards d
  end.

Definition setRows (type : EntityType) (l : list Row) (d : Doc) : Doc :=
  match type with
  | query =>
      {| owner := owner d; queries := l; charts := charts d;
         dashboards := dashboards d |}
  | chart =>
      {| owner := owner d; queries := queries d; charts := l;
         dashboards := dashboards d |}
  | dashboard =>
      {| owner := owner d; queries := queries d; charts := charts d;
         dashboards := l |}
  end.

(** What a remote call is asked to do. *)
Inductive Request :=
  | InsertDoc (type : EntityType) (title : string)
  | DeleteDoc (type : EntityType) (name : string)
  | DeleteWorkbook
  | SaveWorkbook
  | TrackView
  | GetSharePermissions
  | UpdateSharePermissions (organization_access : option Share.Access)
      (user_permissions : list Share.PermissionUpdate).

(** The values promises are settled with. *)
Inductive Value :=
  | Undefined
  | Inserted (name : string)
  | BackendPermissions (organization_access : option Share.Access)
      (user_permissions : list Share.BackendPermission)
  | SharePermissions (organization_access : option Share.Access)
      (user_permissions : list Share.WorkbookUserPermission).

Inductive Outcome :=
  | Fulfilled (v : Value)
  | Rejected (reason : string).

(** The closures handed to [then], [catch] and [confirmDialog], with the
    variables they capture. *)
Inductive Callback :=
  | PushAndActivate (type : EntityType) (title : string)
      (row_query chart_type : option string)
  | Splice (type : EntityType) (index : nat)
  | ReplaceRoute (path : string)
  | MapPermissions
  | ShowErrorToast
  | Ignore.

Inductive Handler :=
  | Then (cb : Callback)
  | Catch (cb : Callback).

Inductive OnSuccess :=
  | Remove (type : EntityType) (name : string)
  | DeleteThisWorkbook.

(** What the outside world sees, in order. *)
Inductive Effect :=
  | DialogShown (title message : string)
  | DialogConfirmed (onSuccess : OnSuccess)
  | DialogDismissed (onSuccess : OnSuccess)
  | RemoteCall (r : Request)
  | RouterReplace (path : string)
  | ErrorToast (reason : string)
  | Settled (r : Request) (result : Outcome).

(** A remote call that has not settled yet, with the handlers chained on
    its promise. *)
Record Pending := {
  request : Request;
  chain : list Handler;
}.

(** The last field is the one thing the module needs to know about the
    imported [showErrorToast] beyond the toast it shows: how a call of it
    ends, by returning a value or by throwing. *)
Record State := {
  workbook_name : string;
  doc : Doc;
  route : string;
  dialogs : list OnSuccess;
  pending : list Pending;
  effects : list Effect;
  showErrorToastResult : string → Outcome;
}.

Definition initial (name : string) (d : Doc) (toast : string → Outcome) : State :=
  {| workbook_name := name; doc := d; route := "/workbook/" +:+ name;
     dialogs := []; pending := []; effects := [];
     showErrorToastResult := toast |}.

Definition emit (e : Effect) (σ : State) : State :=
  {| workbook_name := workbook_name σ; doc := doc σ; route := route σ;
     dialogs := dialogs σ; pending := pending σ;
     effects := effects σ ++ [e];
     showErrorToastResult := showErrorToastResult σ |}.

Definition setDoc (d : Doc) (σ : State) : State :=
  {| workbook_name := workbook_name σ; doc := d; route := route σ;
     dialogs := dialogs σ; pending := pending σ; effects := effects σ;
     showErrorToastResult := showErrorToastResult σ |}.

Definition setDialogs (l : list OnSuccess) (σ : State) : State :=
  {| workbook_name := workbook_name σ; doc := doc σ; route := route σ;
     dialogs := l; pending := pending σ; effects := effects σ;
     showErrorToastResult := showErrorToastResult σ |}.

Definition setPending (l : list Pending) (σ : State) : State :=
  {| workbook_name := workbook_name σ; doc := doc σ; route := route σ;
     dialogs := dialogs σ; pending := l; effects := effects σ;
     showErrorToastResult := showErrorToastResult σ |}.

(** [router.replace(path)] *)
Definition routerReplace (path : string) (σ : State) : State :=
  emit (RouterReplace path)
    {| workbook_name := workbook_name σ; doc := doc σ; route := path;
       dialogs := dialogs σ; pending := pending σ; effects := effects σ;
       showErrorToastResult := showErrorToastResult σ |}.

(** Issue a remote call and chain [handlers] on the promise it returns. *)
Definition remote (r : Request) (handlers : list Handler) (σ : State) : State :=
  setPending (pending σ ++ [{| request := r; chain := handlers |}])
    (emit (RemoteCall r) σ).

(** Modelled from the spec: [confirmDialog({ title, message, onSuccess })]
    (helpers module) shows a confirmation prompt and keeps [onSuccess] until
    the user answers; it runs [onSuccess] when the user confirms and drops it
    when the user dismisses the prompt (see [step]). *)
Definition confirmDialog (title message : string) (onSuccess : OnSuccess)
    (σ : State) : State :=
  setDialogs (dialogs σ ++ [onSuccess]) (emit (DialogShown title message) σ).

Definition setActiveTab (type : EntityType) (name : string) (σ : State) : State :=
  routerReplace
    ("/workbook/" +:+ workbook_name σ +:+ "/" +:+ typeName type +:+ "/" +:+ name) σ.

(** [list.findIndex((row) => row.name === name)], [-1] when there is none. *)
Definition findIndex (name' : string) (l : list Row) : Z :=
  match list_find (λ row, name row = name') l with
  | Some (i, _) => Z.of_nat i
  | None => -1
  end.

(** [addQuery], [addChart(query_name)], [addDashboard] *)
Definition addQuery (σ : State) : State :=
  let title := "Query " +:+ pretty (length (queries (doc σ)) + 1) in
  remote (InsertDoc query title) [Then (PushAndActivate query title None None)] σ.

Definition addChart (query_name : option string) (σ : State) : State :=
  let title := "Chart " +:+ pretty (length (charts (doc σ)) + 1) in
  remote (InsertDoc chart title)
    [Then (PushAndActivate chart title (Some (default "" query_name)) (Some "Bar"))] σ.

Definition addDashboard (σ : State) : State :=
  let title := "Dashboard " +:+ pretty (length (dashboards (doc σ)) + 1) in
  remote (InsertDoc dashboard title)
    [Then (PushAndActivate dashboard title None None)] σ.

(** The inner [_remove] of [removeQuery], [removeChart] and
    [removeDashboard]; the three differ in the list and the tab type only.
    The delete is asynchronous, so the list is still whole when the entry at
    [nextIndex] is read; that read is always in range ([nextIndex < index]),
    the [None] branch stands for the out-of-range read. *)
Definition _remove (type : EntityType) (name' : string) (σ : State) : State :=
  let index := findIndex name' (rows type (doc σ)) in
  if decide (index = -1)%Z then σ
  else
    let σ1 := remote (DeleteDoc type name') [Then (Splice type (Z.to_nat index))] σ in
    let nextIndex := (index - 1)%Z in
    if decide (0 ≤ nextIndex)%Z then
      match rows type (doc σ1) !! Z.to_nat nextIndex with
      | Some row => setActiveTab type (name row) σ1
      | None => σ1
      end
    else routerReplace ("/workbook/" +:+ workbook_name σ1) σ1.

Definition removeQuery (name' : string) : State → State :=
  confirmDialog "Delete Query" "Are you sure you want to delete this query?"
    (Remove query name').

Definition removeChart (chartName : string) : State → State :=
  confirmDialog "Delete Chart" "Are you sure you want to delete this chart?"
    (Remove chart chartName).

Definition removeDashboard (dashboardName : string) : State → State :=
  confirmDialog "Delete Dashboard"
    "Are you sure you want to delete this dashboard?"
    (Remove dashboard dashboardName).

Definition deleteWorkbook : State → State :=
  confirmDialog "Delete Workbook"
    "Are you sure you want to delete this workbook?" DeleteThisWorkbook.

(** The body of an [onSuccess] closure. *)
Definition runOnSuccess (cb : OnSuccess) (σ : State) : State :=
  match cb with
  | Remove type name' => _remove type name' σ
  | DeleteThisWorkbook => remote DeleteWorkbook [Then (ReplaceRoute "/workbook")] σ
  end.

Definition getSharePermissions (σ : State) : State :=
  remote GetSharePermissions [Then MapPermissions] σ.

Definition updateSharePermissions (organization_access : option Share.Access)
    (user_permissions : list Share.WorkbookUserPermission) (σ : State) : State :=
  remote
    (UpdateSharePermissions organization_access
       (Share.toPermissionUpdate <$> user_permissions))
    [Catch ShowErrorToast] σ.

(** [workbook.onAfterLoad(() => workbook.call('track_view').catch(() => {}))] *)
Definition onAfterLoad (σ : State) : State :=
  remote TrackView [Catch Ignore] σ.

(** The callback of the auto-save watcher: [shouldSave && workbook.save()]. *)
Definition autoSaveCallback (shouldSave : bool) (σ : State) : State :=
  if shouldSave then remote SaveWorkbook [] σ else σ.

(** Modelled from the spec: [showErrorToast] (helpers module) surfaces the
    failure as a generic error toast.  Neither the specification nor the
    module tells whether the helper then returns or throws (the failure
    again, say), so the call ends as [showErrorToastResult] says. *)
Definition showErrorToast (reason : string) (σ : State) : Outcome * State :=
  (showErrorToastResult σ reason, emit (ErrorToast reason) σ).

(** A fulfilment handler applied to the value of the promise. *)
Definition runThen (cb : Callback) (v : Value) (σ : State) : Value * State :=
  match cb with
  | PushAndActivate type title' q ct =>
      let inserted := match v with Inserted n => n | _ => "" end in
      let row := {| name := inserted; title := title'; row_query := q;
                    chart_type := ct |} in
      (Undefined,
       setActiveTab type inserted
         (setDoc (setRows type (rows type (doc σ) ++ [row]) (doc σ)) σ))
  | Splice type index =>
      (Undefined, setDoc (setRows type (delete index (rows type (doc σ))) (doc σ)) σ)
  | ReplaceRoute path => (Undefined, routerReplace path σ)
  | MapPermissions =>
      match v with
      | BackendPermissions org ps =>
          (SharePermissions org (Share.toUserPermission <$> ps), σ)
      | _ => (Undefined, σ)
      end
  | ShowErrorToast | Ignore => (Undefined, σ)
  end.

(** A rejection handler applied to the reason: what the call of the handler
    ends in, and the state it leaves.  [() => {}] returns [undefined]; the
    closures of the other callbacks are never chained with [catch]. *)
Definition runCatch (cb : Callback) (reason : string) (σ : State) : Outcome * State :=
  match cb with
  | ShowErrorToast => showErrorToast reason σ
  | Ignore => (Fulfilled Undefined, σ)
  | _ => (Fulfilled Undefined, σ)
  end.

(** A promise settling with [o] runs down its chain: [then] handlers are
    skipped by a rejection, [catch] handlers by a fulfilment, and a handler
    that ran settles the next promise: fulfilled with what it returned,
    rejected with what it threw. *)
Fixpoint settle (o : Outcome) (handlers : list Handler) (σ : State) : Outcome * State :=
  match handlers with
  | [] => (o, σ)
  | Then cb :: rest =>
      match o with
      | Fulfilled v => let '(v', σ') := runThen cb v σ in settle (Fulfilled v') rest σ'
      | Rejected _ => settle o rest σ
      end
  | Catch cb :: rest =>
      match o with
      | Fulfilled _ => settle o rest σ
      | Rejected reason =>
          let '(o', σ') := runCatch cb reason σ in settle o' rest σ'
      end
  end.

(** What can happen to a workbook: one of its functions is called, the user
    answers an open dialog, or a remote call settles. *)
Inductive Action :=
  | CallAddQuery
  | CallAddChart (query_name : option string)
  | CallAddDashboard
  | CallRemoveQuery (name : string)
  | CallRemoveChart (name : string)
  | CallRemoveDashboard (name : string)
  | CallDelete
  | CallGetSharePermissions
  | CallUpdateSharePermissions (organization_access : option Share.Access)
      (user_permissions : list Share.WorkbookUserPermission)
  | AfterLoad
  | AutoSave (shouldSave : bool)
  | UserConfirms (dialog : nat)
  | UserDismisses (dialog : nat)
  | RemoteSettles (call : nat) (o : Outcome).

Definition step (a : Action) (σ : State) : State :=
  match a with
  | CallAddQuery => addQuery σ
  | CallAddChart q => addChart q σ
  | CallAddDashboard => addDashboard σ
  | CallRemoveQuery n => removeQuery n σ
  | CallRemoveChart n => removeChart n σ
  | CallRemoveDashboard n => removeDashboard n σ
  | CallDelete => deleteWorkbook σ
  | CallGetSharePermissions => getSharePermissions σ
  | CallUpdateSharePermissions org ps => updateSharePermissions org ps σ
  | AfterLoad => onAfterLoad σ
  | AutoSave b => autoSaveCallback b σ
  | UserConfirms i =>
      match dialogs σ !! i with
      | Some cb =>
          runOnSuccess cb
            (emit (DialogConfirmed cb) (setDialogs (delete i (dialogs σ)) σ))
      | None => σ
      end
  | UserDismisses i =>
      match dialogs σ !! i with
      | Some cb => emit (DialogDismissed cb) (setDialogs (delete i (dialogs σ)) σ)
      | None => σ
      end
  | RemoteSettles i o =>
      match pending σ !! i with
      | Some p =>
          let '(result, σ') := settle o (chain p) (setPending (delete i (pending σ)) σ) in
          emit (Settled (request p) result) σ'
      | None => σ
      end
  end.

Definition run (actions : list Action) (σ : State) : State :=
  foldl (λ σ a, step a σ) σ actions.

(** The remote call that a confirmed dialog stands for, read backwards: the
    [onSuccess] closure that issues the destructive request [r]. *)
Definition confirmationFor (r : Request) : option OnSuccess :=
  match r with
  | DeleteDoc type name' => Some (Remove type name')
  | DeleteWorkbook => Some DeleteThisWorkbook
  | _ => None
  end.

(** The dialog each closure is attached to. *)
Definition dialogFor (cb : OnSuccess) : Effect :=
  match cb with
  | Remove query _ =>
      DialogShown "Delete Query" "Are you sure you want to delete this query?"
  | Remove chart _ =>
      DialogShown "Delete Chart" "Are you sure you want to delete this chart?"
  | Remove dashboard _ =>
      DialogShown "Delete Dashboard"
        "Are you sure you want to delete this dashboard?"
  | DeleteThisWorkbook =>
      DialogShown "Delete Workbook"
        "Are you sure you want to delete this workbook?"
  end.

(** What may follow a trace: a destructive remote call only directly after
    the confirmation of its dialog, a confirmation only after its dialog was
    shown. *)
Definition allowed (before : list Effect) (e : Effect) : Prop :=
  match e with
  | RemoteCall r =>
      ∀ cb, confirmationFor r = Some cb → last before = Some (DialogConfirmed cb)
  | DialogConfirmed cb => dialogFor cb ∈ before
  | _ => True
  end.

Definition gated (l : list Effect) : Prop :=
  ∀ k e, l !! k = Some e → allowed (take k l) e.

Definition confirmed_first (σ : State) : Prop :=
  gated (effects σ) ∧ ∀ cb, cb ∈ dialogs σ → dialogFor cb ∈ effects σ.

(** The handlers each kind of request carries. *)
Definition chained (p : Pending) : Prop :=
  match request p with
  | UpdateSharePermissions _ _ => chain p = [Catch ShowErrorToast]
  | TrackView => chain p = [Catch Ignore]
  | _ => Forall (λ h, ∃ cb, h = Then cb) (chain p)
  end.

(** [addQuery], [addChart] and [addDashboard] by entity type, and the prefix
    each puts before the number in the title. *)
Definition add (type : EntityType) (query_name : option string) (σ : State) : State :=
  match type with
  | query => addQuery σ
  | chart => addChart query_name σ
  | dashboard => addDashboard σ
  end.

Definition label (type : EntityType) : string :=
  match type with
  | query => "Query "
  | chart => "Chart "
  | dashboard => "Dashboard "
  end.

(** The closure a call hands to the confirmation dialog, for the calls that
    open one. *)
Definition opens (a : Action) : option OnSuccess :=
  match a with
  | CallRemoveQuery n => Some (Remove query n)
  | CallRemoveChart n => Some (Remove chart n)
  | CallRemoveDashboard n => Some (Remove dashboard n)
  | CallDelete => Some DeleteThisWorkbook
  | _ => None
  end.

(** Example workbook: three queries, one chart, no dashboard. *)
Definition entry (n t : string) : Row :=
  {| name := n; title := t; row_query := None; chart_type := None |}.

Definition sampleDoc : Doc :=
  {| owner := "ada@example.com";
     queries := [entry "q1" "Query 1"; entry "q2" "Query 2"; entry "q3" "Query 3"];
     charts := [{| name := "c1"; title := "Chart 1"; row_query := Some "q1";
                   chart_type := Some "Bar" |}];
     dashboards := [] |}.

(** In the example the error toast returns nothing. *)
Definition sample : State := initial "wb" sampleDoc (λ _, Fulfilled Undefined).
End Crud.

(** ** Auto-save *)

Module AutoSave.

Inductive Mode := Idle | Watching.

(** A debounced watcher of the runtime: the value of the watched expression
    it saw last, and the invocation of its callback that is waiting, as
    (milliseconds left, argument). *)
Record Watcher := {
  observed : bool;
  timer : option (nat * bool);
}.

(** [watchers] are the watchers that are registered and not stopped, under
    their stop handles; [leftover] are the invocations that were waiting in a
    watcher when it was stopped and wait on without it. *)
Record State := {
  enable_auto_save : bool;
  isdirty : bool;
  _pauseAutoSave : bool;
  stopAutoSaveWatcher : option nat;
  watchers : list (nat * Watcher);
  leftover : list (nat * bool);
  next : nat;
  saves : nat;
}.

(** [{ debounce: 2000 }] *)
Definition debounce : nat := 2000.

Definition initial : State :=
  {| enable_auto_save := false; isdirty := false; _pauseAutoSave := false;
     stopAutoSaveWatcher := None; watchers := []; leftover := [];
     next := 0; saves := 0 |}.

Definition mode (σ : State) : Mode :=
  match stopAutoSaveWatcher σ with
  | Some _ => Watching
  | None => Idle
  end.

(** The watched expression, [workbook.isdirty && !_pauseAutoSave.value]. *)
Definition shouldSave (σ : State) : bool := isdirty σ && negb (_pauseAutoSave σ).

Definition setFlags (enable dirty pause : bool) (σ : State) : State :=
  {| enable_auto_save := enable; isdirty := dirty; _pauseAutoSave := pause;
     stopAutoSaveWatcher := stopAutoSaveWatcher σ; watchers := watchers σ;
     leftover := leftover σ; next := next σ; saves := saves σ |}.

Definition setWatchers (l : list (nat * Watcher)) (σ : State) : State :=
  {| enable_auto_save := enable_auto_save σ; isdirty := isdirty σ;
     _pauseAutoSave := _pauseAutoSave σ;
     stopAutoSaveWatcher := stopAutoSaveWatcher σ; watchers := l;
     leftover := leftover σ; next := next σ; saves := saves σ |}.

Definition setLeftover (l : list (nat * bool)) (σ : State) : State :=
  {| enable_auto_save := enable_auto_save σ; isdirty := isdirty σ;
     _pauseAutoSave := _pauseAutoSave σ;
     stopAutoSaveWatcher := stopAutoSaveWatcher σ; watchers := watchers σ;
     leftover := l; next := next σ; saves := saves σ |}.

Definition setHandle (h : option nat) (σ : State) : State :=
  {| enable_auto_save := enable_auto_save σ; isdirty := isdirty σ;
     _pauseAutoSave := _pauseAutoSave σ;
     stopAutoSaveWatcher := h; watchers := watchers σ;
     leftover := leftover σ; next := next σ; saves := saves σ |}.

(** Modelled from the spec: [watchDebounced] (the watcher library) with
    [{ immediate: true, debounce: 2000 }] registers a watcher whose callback
    is invoked with the current value of the watched expression once 2000 ms
    have passed without that value changing, starting at registration.  It
    returns the handle that stops the watcher. *)
Definition watchDebounced (σ : State) : nat * State :=
  let w := {| observed := shouldSave σ; timer := Some (debounce, shouldSave σ) |} in
  (next σ,
   {| enable_auto_save := enable_auto_save σ; isdirty := isdirty σ;
      _pauseAutoSave := _pauseAutoSave σ;
      stopAutoSaveWatcher := stopAutoSaveWatcher σ;
      watchers := watchers σ ++ [(next σ, w)];
      leftover := leftover σ;
      next := S (next σ); saves := saves σ |}).

(** Modelled from the spec: calling the handle stops its watcher, which does
    not look at the watched expression again.  Nothing is cancelled (the
    specification knows no explicit cancellation, and the module only calls
    the handle): an invocation of the callback that is waiting for its
    debounce when the watcher is stopped stays scheduled, and runs with the
    argument it was scheduled with. *)
Definition stop (h : nat) (σ : State) : State :=
  let stopped := filter (λ p, p.1 = h) (watchers σ) in
  setLeftover (leftover σ ++ omap (λ p, timer p.2) stopped)
    (setWatchers (filter (λ p, p.1 ≠ h) (watchers σ)) σ).

(** The callback handed to [wheneverChanges]:
    [if (!enable_auto_save && stopAutoSaveWatcher)] stop the watcher and
    reset the handle to [null]; then
    [if (enable_auto_save && !stopAutoSaveWatcher)] start a watcher and keep
    its handle.  A handle is truthy, [null] and [undefined] are not. *)
Definition onEnableAutoSaveChange (σ : State) : State :=
  let σ1 :=
    match stopAutoSaveWatcher σ with
    | Some h => if negb (enable_auto_save σ) then setHandle None (stop h σ) else σ
    | None => σ
    end in
  match stopAutoSaveWatcher σ1 with
  | None =>
      if enable_auto_save σ1
      then let '(h, σ2) := watchDebounced σ1 in setHandle (Some h) σ2
      else σ1
  | Some _ => σ1
  end.

(** A watcher looking at the watched expression again: a new value restarts
    the debounce with that value as the argument. *)
Definition observe (v : bool) (w : Watcher) : Watcher :=
  if bool_decide (observed w = v) then w
  else {| observed := v; timer := Some (debounce, v) |}.

Definition refresh (σ : State) : State :=
  setWatchers (prod_map id (observe (shouldSave σ)) <$> watchers σ) σ.

(** A waiting invocation over one millisecond: the argument it runs with if
    its debounce runs out then, and what is left of it otherwise. *)
Definition fires (i : nat * bool) : option bool :=
  if decide (i.1 ≤ 1) then Some i.2 else None.

Definition remaining (i : nat * bool) : option (nat * bool) :=
  if decide (i.1 ≤ 1) then None else Some (i.1 - 1, i.2).

(** The argument a watcher's callback is invoked with during the next
    millisecond, if its debounce runs out then. *)
Definition due (w : Watcher) : option bool := timer w ≫= fires.

Definition elapse (w : Watcher) : Watcher :=
  {| observed := observed w; timer := timer w ≫= remaining |}.

(** [(shouldSave) => shouldSave && workbook.save()]: the number of calls
    of [workbook.save()] made by a callback that is invoked with [arg], or
    not invoked ([None]). *)
Definition runCallback (arg : option bool) : nat :=
  match arg with
  | Some true => 1
  | _ => 0
  end.

(** The calls of [workbook.save()] that the waiting invocations [l] make
    during the next millisecond, and those of the invocations left by
    stopped watchers. *)
Definition firing (l : list (nat * bool)) : nat :=
  sum_list_with (λ i, runCallback (fires i)) l.

Definition lateSaves (σ : State) : nat := firing (leftover σ).

(** One millisecond passes: every callback that comes due runs, whether its
    watcher is still registered or not. *)
Definition tick (σ : State) : State :=
  {| enable_auto_save := enable_auto_save σ; isdirty := isdirty σ;
     _pauseAutoSave := _pauseAutoSave σ;
     stopAutoSaveWatcher := stopAutoSaveWatcher σ;
     watchers := prod_map id elapse <$> watchers σ;
     leftover := omap remaining (leftover σ);
     next := next σ;
     saves := saves σ + sum_list_with (λ p, runCallback (due p.2)) (watchers σ)
              + lateSaves σ |}.

Inductive Event :=
  | SetEnableAutoSave (b : bool)
  | SetDirty (b : bool)
  | SetPause (b : bool)
  | Tick.

#[global] Instance Event_eq_dec : EqDecision Event.
Proof. solve_decision. Defined.

(** Modelled from the spec: [wheneverChanges] (helpers module) runs its
    callback when the watched value, here [doc.enable_auto_save], changes. *)
Definition step (e : Event) (σ : State) : State :=
  match e with
  | SetEnableAutoSave b =>
      if bool_decide (enable_auto_save σ = b) then σ
      else onEnableAutoSaveChange (setFlags b (isdirty σ) (_pauseAutoSave σ) σ)
  | SetDirty b => refresh (setFlags (enable_auto_save σ) b (_pauseAutoSave σ) σ)
  | SetPause b => refresh (setFlags (enable_auto_save σ) (isdirty σ) b σ)
  | Tick => tick σ
  end.

Definition run (events : list Event) (σ : State) : State :=
  foldl (λ σ e, step e σ) σ events.

(** The invocations waiting in the registered watchers. *)
Definition waiting (σ : State) : list (nat * bool) :=
  omap (λ p, timer p.2) (watchers σ).

(** The milliseconds the invocations of the registered watchers have been
    waiting already. *)
Definition waited (σ : State) : nat :=
  sum_list_with
    (λ p, match timer p.2 with
          | Some (r, _) => debounce - r
          | None => 0
          end)
    (watchers σ).

(** The saves [n] milliseconds bring from the invocations [l]: one for each
    that was scheduled with [true] and has at most [n] ms left. *)
Definition savesWithin (n : nat) (l : list (nat * bool)) : nat :=
  sum_list_with (λ i : nat * bool, if bool_decide (i.1 ≤ n) && i.2 then 1 else 0) l.

(** The saves still to come from stopped watchers: the invocations left
    that were scheduled with [true]. *)
Definition scheduled (l : list (nat * bool)) : nat :=
  sum_list_with (λ i : nat * bool, if i.2 then 1 else 0) l.

Definition owed (σ : State) : nat := scheduled (leftover σ).

(** The debounce of a registered watcher runs out during the next
    millisecond. *)
Definition expires (σ : State) : bool :=
  bool_decide (Exists (λ p, is_Some (due p.2)) (watchers σ)).

(** The handle held in [stopAutoSaveWatcher] is the handle of the one live
    watcher, and that watcher is up to date with the flags. *)
Definition consistent (σ : State) : Prop :=
  match stopAutoSaveWatcher σ with
  | Some h =>
      enable_auto_save σ = true ∧
      ∃ w, watchers σ = [(h, w)] ∧ observed w = shouldSave σ ∧
           ∀ r v, timer w = Some (r, v) → v = shouldSave σ ∧ 1 ≤ r ≤ debounce
  | None => enable_auto_save σ = false ∧ watchers σ = []
  end.

(** Every invocation left by a stopped watcher runs within the debounce. *)
Definition punctual (σ : State) : Prop :=
  Forall (λ i, 1 ≤ i.1 ≤ debounce) (leftover σ).
End AutoSave.

(** ** Linked-query resolver *)

Module Linked.

(** The table argument of an operation.  [table_type] is the [type] field of
    the object ([None] when the object has no such field). *)
Record Table := {
  table_type : option string;
  query_name : string;
}.

(** A query operation.  [table] is [None] for the operations that carry no
    [table] field (filter, select, mutate, ...). *)
Record Operation := {
  op_type : string;
  table : option Table;
}.

(** The parts of a query object that the resolver reads.  [isloaded] only
    decides whether a line is logged. *)
Record Query := {
  isloaded : bool;
  currentOperations : list Operation;
  activeEditIndex : Z;
}.

(** A JavaScript [Set<string>]: the members in insertion order. *)
Definition set_add (s : list string) (x : string) : list string :=
  if decide (x ∈ s) then s else s ++ [x].

(** [r.forEach((q) => s.add(q))] *)
Definition add_all (s r : list string) : list string := fold_left set_add r s.

(** [operations.splice(activeEditIndex)] on the copy, guarded by
    [activeEditIndex > -1]: everything from that index on is dropped. *)
Definition effectiveOperations (query : Query) : list Operation :=
  if decide (-1 < activeEditIndex query)%Z
  then take (Z.to_nat (activeEditIndex query)) (currentOperations query)
  else currentOperations query.

(** ['table' in op && 'type' in op.table && op.table.type === 'query'] *)
Definition referencedQuery (op : Operation) : option string :=
  match table op with
  | Some t =>
      match table_type t with
      | Some ty => if decide (ty = "query") then Some (query_name t) else None
      | None => None
      end
  | None => None
  end.

(** The first [forEach]: the set built from the operations. *)
Definition collect (operations : list Operation) : list string :=
  fold_left
    (fun s op => match referencedQuery op with
                 | Some q => set_add s q
                 | None => s
                 end)
    operations [].

(** [linkedQueries.forEach((q) => rec(q).forEach((q) => linkedQueries.add(q)))].
    [Set.prototype.forEach] walks the entries in insertion order and also
    visits the entries added while it runs, so the walk is a cursor [i] into
    the growing list.  [n] bounds the number of callback invocations; the walk
    gives [None] when the bound is hit or when a callback does not return. *)
Fixpoint forEach (rec : string -> option (list string)) (n i : nat)
    (s : list string) : option (list string) :=
  match s !! i with
  | None => Some s
  | Some q =>
      match n with
      | 0 => None
      | S n' =>
          match rec q with
          | None => None
          | Some r => forEach rec n' (S i) (add_all s r)
          end
      end
  end.

Section resolver.
(** [useQuery] is imported from the query module; the resolver only reads
    the record it returns. *)
Variable useQuery : string -> Query.

Definition directRefs (name : string) : list string :=
  collect (effectiveOperations (useQuery name)).

(** [getLinkedQueries].  [fuel] bounds the depth of the recursion (and the
    length of each walk); [None] means the bound was hit. *)
Fixpoint getLinkedQueries (fuel : nat) (name : string) : option (list string) :=
  match fuel with
  | 0 => None
  | S f => forEach (getLinkedQueries f) f 0 (directRefs name)
  end.

(** The resolver as the specification words it: collect the operations
    that reference a query, recurse into each collected query, accumulate
    into the dedup set. *)
Fixpoint linkedClosure (fuel : nat) (name : string) : option (list string) :=
  match fuel with
  | 0 => None
  | S f =>
      rs ← mapM (linkedClosure f) (directRefs name);
      Some (fold_left add_all rs (directRefs name))
  end.

(** [references x d]: query [x] uses query [d] as the table of one of its
    effective operations, an edge of the reference graph. *)
Definition references (x d : string) : Prop := d ∈ directRefs x.
End resolver.

(** The store after the query object under [name] has been replaced. *)
Definition withQuery (useQuery : string → Query) (name : string) (q : Query)
    (x : string) : Query :=
  if decide (x = name) then q else useQuery x.

(** Example stores. *)
Definition sourceOp (t : string) : Operation :=
  {| op_type := "source";
     table := Some {| table_type := Some "table"; query_name := t |} |}.
Definition queryOp (kind q : string) : Operation :=
  {| op_type := kind;
     table := Some {| table_type := Some "query"; query_name := q |} |}.
Definition plainOp (kind : string) : Operation :=
  {| op_type := kind; table := None |}.
Definition mkQuery (ops : list Operation) (idx : Z) : Query :=
  {| isloaded := true; currentOperations := ops; activeEditIndex := idx |}.

Definition storeOf (m : gmap string Query) (name : string) : Query :=
  default (mkQuery [] (-1)) (m !! name).

(** orders -> customers -> regions, orders -> regions (a diamond, acyclic) *)
Definition dagStore : gmap string Query :=
  <["orders" := mkQuery [queryOp "source" "customers"; plainOp "filter";
                         queryOp "join" "regions"; queryOp "join" "customers"] (-1)]>
  (<["customers" := mkQuery [queryOp "source" "regions"; plainOp "select";
                             queryOp "join" "archive"] 2]>
  (<["regions" := mkQuery [sourceOp "tabRegion"] (-1)]> ∅)).

(** a -> b -> a *)
Definition cyclicStore : gmap string Query :=
  <["a" := mkQuery [queryOp "source" "b"] (-1)]>
  (<["b" := mkQuery [queryOp "source" "a"] (-1)]> ∅).

(** totals joins with itself *)
Definition selfStore : gmap string Query :=
  <["totals" := mkQuery [sourceOp "tabSales"; queryOp "join" "totals"] (-1)]> ∅.
End Linked.

(** ** Build configuration: the index.html transform *)

Module ViteConfig.

(** [stripPrefix pat s] is what follows [pat] when [s] starts with [pat]. *)
Fixpoint stripPrefix (pat s : string) : option string :=
  match pat, s with
  | EmptyString, _ => Some s
  | String a pat', String b s' =>
      if decide (a = b) then stripPrefix pat' s' else None
  | String _ _, EmptyString => None
  end.

(** [s.replace(/pat/, rep)] for a pattern that is literal text and a
    replacement without [$]: the leftmost occurrence of [pat] is replaced,
    a string without occurrence is returned as it is.  The page is a
    sequence of characters; the pattern used here is plain ASCII. *)
Fixpoint replaceFirst (pat rep s : string) : string :=
  match stripPrefix pat s with
  | Some rest => rep +:+ rest
  | None =>
      match s with
      | EmptyString => EmptyString
      | String c s' => String c (replaceFirst pat rep s')
      end
  end.

Definition nl : string := String "010"%char EmptyString.
Definition quote : string := String "034"%char EmptyString.

(** The template literal passed to [replace], line by line. *)
Definition bootScript : string :=
  nl +:+
  "            <script>" +:+ nl +:+
  "                {% for key in boot %}" +:+ nl +:+
  "                window[" +:+ quote +:+ "{{ key }}" +:+ quote +:+
    "] = {{ boot[key] | tojson }};" +:+ nl +:+
  "                {% endfor %}" +:+ nl +:+
  "            </script>" +:+ nl +:+
  "            </body>" +:+ nl +:+
  "            ".

(** [transformIndexHtml(html, context)]; [server] is whether
    [context.server] is set. *)
Definition transformIndexHtml (html : string) (server : bool) : string :=
  if negb server then replaceFirst "</body>" bootScript html else html.

End ViteConfig.

(** * Properties *)

(** ** Workbook registry *)

Module RegistryFacts.
Import Registry.

Section registry_facts.
Context {Value : Type}.
Variable JsString : Value → string.
Local Abbreviation useWorkbook := (Registry.useWorkbook JsString).
Local Abbreviation requests := (Registry.requests JsString).

Lemma useWorkbook_cached arg σ w :
  workbooks σ !! JsString arg = Some w → useWorkbook arg σ = (w, σ).
Proof. unfold useWorkbook. by intros ->. Qed.

Lemma useWorkbook_caches arg σ :
  workbooks (useWorkbook arg σ).2 !! JsString arg = Some (useWorkbook arg σ).1.
Proof.
  unfold useWorkbook. destruct (workbooks σ !! JsString arg) eqn:Hget; simpl.
  - done.
  - apply lookup_insert_eq.
Qed.

Lemma useWorkbook_keeps arg σ key w :
  workbooks σ !! key = Some w → workbooks (useWorkbook arg σ).2 !! key = Some w.
Proof.
  intros Hkey. unfold useWorkbook.
  destruct (workbooks σ !! JsString arg) eqn:Hget; simpl; [done|].
  rewrite lookup_insert_ne; [done|]. intros <-. congruence.
Qed.

Lemma requests_keep args σ key w :
  workbooks σ !! key = Some w → workbooks (requests args σ) !! key = Some w.
Proof.
  revert σ. induction args as [|arg args IH]; intros σ Hkey; simpl; [done|].
  by apply IH, useWorkbook_keeps.
Qed.

(** One object per cached identifier: the objects created are exactly the
    cached ones. *)
Lemma useWorkbook_created arg σ :
  size (workbooks σ) = created σ →
  size (workbooks (useWorkbook arg σ).2) = created (useWorkbook arg σ).2.
Proof.
  intros Hsize. unfold useWorkbook.
  destruct (workbooks σ !! JsString arg) eqn:Hget; simpl; [done|].
  rewrite map_size_insert_None by done. by rewrite Hsize.
Qed.

Lemma requests_created args σ :
  size (workbooks σ) = created σ →
  size (workbooks (requests args σ)) = created (requests args σ).
Proof.
  revert σ. induction args as [|arg args IH]; intros σ Hsize; simpl; [done|].
  by apply IH, useWorkbook_created.
Qed.

End registry_facts.

Example useWorkbook_twice :
  let '(w1, σ1) := useWorkbook jsString (JsStr "sales") emptySession in
  let '(w2, σ2) := useWorkbook jsString (JsStr "ops") σ1 in
  let '(w3, σ3) := useWorkbook jsString (JsStr "sales") σ2 in
  (ref w1, ref w2, ref w3, created σ3) = (0, 1, 0, 2).
Proof. vm_compute. reflexivity. Qed.

(** C2: after any history of requests, a request for an identifier followed,
    after any further requests, by a second request for the same identifier
    returns the same workbook object; the first request leaves the object in
    the cache and the second creates nothing. *)
Theorem useWorkbook_same_instance {Value : Type} (JsString : Value → string)
    (history between : list Value) (arg : Value) :
  let σ := requests JsString history emptySession in
  let first := useWorkbook JsString arg σ in
  let σ' := requests JsString between first.2 in
  let second := useWorkbook JsString arg σ' in
  second.1 = first.1 ∧
  workbooks first.2 !! JsString arg = Some first.1 ∧
  second.2 = σ' ∧
  size (workbooks second.2) = created second.2.
Proof.
  intros σ first σ' second.
  assert (workbooks σ' !! JsString arg = Some first.1) as Hcached.
  { apply requests_keep, useWorkbook_caches. }
  unfold second. rewrite (useWorkbook_cached _ _ _ _ Hcached). simpl.
  split_and!; [done|apply useWorkbook_caches|done|].
  apply requests_created, useWorkbook_created, requests_created. done.
Qed.

(** *** One object per identifier *)

Section registry_objects.
Context {Value : Type}.
Variable JsString : Value → string.
Local Abbreviation useWorkbook := (Registry.useWorkbook JsString).
Local Abbreviation requests := (Registry.requests JsString).

Lemma well_keyed_empty : well_keyed emptySession.
Proof. split; intros *; simpl; by rewrite lookup_empty. Qed.

Lemma well_keyed_useWorkbook arg σ :
  well_keyed σ → well_keyed (useWorkbook arg σ).2.
Proof.
  intros [Hkey Hinj]. unfold Registry.useWorkbook.
  destruct (workbooks σ !! JsString arg) eqn:Hget; simpl; [done|]. split.
  - intros k w. simpl. rewrite lookup_insert. case_decide as Hk.
    + intros [= <-]. simpl. split; [done|lia].
    + intros Hw. destruct (Hkey _ _ Hw). split; [done|lia].
  - intros k1 k2 w1 w2. simpl. rewrite !lookup_insert.
    repeat case_decide; intros H1 H2 Href; simplify_eq; simpl in *.
    + done.
    + destruct (Hkey _ _ H2). lia.
    + destruct (Hkey _ _ H1). lia.
    + by eapply Hinj.
Qed.

Lemma well_keyed_requests args σ : well_keyed σ → well_keyed (requests args σ).
Proof.
  revert σ. induction args as [|arg args IH]; intros σ Hσ; simpl; [done|].
  by apply IH, well_keyed_useWorkbook.
Qed.

Lemma requests_dom args σ :
  dom (workbooks (requests args σ)) =
  dom (workbooks σ) ∪ list_to_set (JsString <$> args).
Proof.
  revert σ. induction args as [|arg args IH]; intros σ; simpl.
  - by rewrite (right_id_L ∅ (∪)).
  - rewrite IH, (assoc_L (∪)). f_equal. unfold Registry.useWorkbook.
    destruct (workbooks σ !! JsString arg) eqn:Hget; simpl.
    + apply (elem_of_dom_2 (D := gset string)) in Hget.
      rewrite (comm_L (∪)). symmetry. apply subseteq_union_1_L.
      by apply singleton_subseteq_l.
    + rewrite dom_insert_L. apply (comm_L (∪)).
Qed.

End registry_objects.

(** C9: [useWorkbook] reads and writes the registry under [String(name)]
    only.  The object of a request is registered under the string form of
    the argument and named by it; it is the entry found under that key when
    there is one, and a new object stored under that key otherwise.  So two
    arguments with the same string form get one workbook object, the second
    request changing nothing, and an argument with another string form never
    gets that object. *)
Theorem useWorkbook_coerces {Value : Type} (JsString : Value → string)
    (history between : list Value) (a b : Value) :
  JsString a = JsString b →
  let σ := requests JsString history emptySession in
  let first := useWorkbook JsString a σ in
  let σ' := requests JsString between first.2 in
  let second := useWorkbook JsString b σ' in
  (second.1 = first.1 ∧ second.2 = σ' ∧ created second.2 = created σ') ∧
  (name first.1 = JsString a ∧
   workbooks first.2 !! JsString a = Some first.1 ∧
   workbooks σ' !! JsString b = Some first.1) ∧
  (∀ w, workbooks σ !! JsString a = Some w → first = (w, σ)) ∧
  (workbooks σ !! JsString a = None →
   ref first.1 = created σ ∧ created first.2 = S (created σ) ∧
   workbooks first.2 = <[JsString a := first.1]> (workbooks σ)) ∧
  (∀ c, JsString c ≠ JsString a →
        ref (useWorkbook JsString c σ').1 ≠ ref first.1).
Proof.
  intros Hab σ first σ' second.
  assert (workbooks first.2 !! JsString a = Some first.1) as Hfirst
    by apply useWorkbook_caches.
  assert (workbooks σ' !! JsString b = Some first.1) as Hcached.
  { rewrite <-Hab. by apply requests_keep. }
  assert (well_keyed first.2) as [Hkey _].
  { apply well_keyed_useWorkbook, well_keyed_requests, well_keyed_empty. }
  split_and!.
  - unfold second. by rewrite (useWorkbook_cached _ _ _ _ Hcached).
  - unfold second. by rewrite (useWorkbook_cached _ _ _ _ Hcached).
  - unfold second. by rewrite (useWorkbook_cached _ _ _ _ Hcached).
  - by destruct (Hkey _ _ Hfirst).
  - done.
  - done.
  - intros w Hw. by apply useWorkbook_cached.
  - intros Hnone. unfold first, Registry.useWorkbook. by rewrite Hnone.
  - intros c Hc Href.
    assert (well_keyed (useWorkbook JsString c σ').2) as [_ Hinj].
    { apply well_keyed_useWorkbook, well_keyed_requests, well_keyed_useWorkbook,
        well_keyed_requests, well_keyed_empty. }
    apply Hc.
    apply (Hinj _ _ (useWorkbook JsString c σ').1 first.1);
      [apply useWorkbook_caches| |done].
    rewrite Hab. by apply useWorkbook_keeps.
Qed.

Lemma useWorkbook_coerces_witness :
  jsString (JsInt 123 I) = jsString (JsStr "123") ∧
  let σ := requests jsString [JsStr "ops"] emptySession in
  let first := useWorkbook jsString (JsInt 123 I) σ in
  let σ' := requests jsString [JsStr "sales"] first.2 in
  let second := useWorkbook jsString (JsStr "123") σ' in
  (second.1 = first.1 ∧ second.2 = σ' ∧ created second.2 = created σ') ∧
  (name first.1 = jsString (JsInt 123 I) ∧
   workbooks first.2 !! jsString (JsInt 123 I) = Some first.1 ∧
   workbooks σ' !! jsString (JsStr "123") = Some first.1) ∧
  (∀ w, workbooks σ !! jsString (JsInt 123 I) = Some w → first = (w, σ)) ∧
  (workbooks σ !! jsString (JsInt 123 I) = None →
   ref first.1 = created σ ∧ created first.2 = S (created σ) ∧
   workbooks first.2 = <[jsString (JsInt 123 I) := first.1]> (workbooks σ)) ∧
  (∀ c, jsString c ≠ jsString (JsInt 123 I) →
        ref (useWorkbook jsString c σ').1 ≠ ref first.1).
Proof.
  split; [vm_compute; reflexivity|].
  apply (useWorkbook_coerces jsString [JsStr "ops"] [JsStr "sales"]
           (JsInt 123 I) (JsStr "123")).
  vm_compute. reflexivity.
Defined.

(** X1: the workbook a request returns carries the string form of the
    argument as its name, and two requests return the same object exactly
    when the string forms of their arguments agree. *)
Theorem useWorkbook_same_object_iff {Value : Type} (JsString : Value → string)
    (history between : list Value) (a b : Value) :
  let σ := requests JsString history emptySession in
  let first := useWorkbook JsString a σ in
  let second := useWorkbook JsString b (requests JsString between first.2) in
  name first.1 = JsString a ∧
  (ref second.1 = ref first.1 ↔ JsString a = JsString b).
Proof.
  intros σ first second.
  assert (well_keyed second.2) as [Hkey Hinj].
  { apply well_keyed_useWorkbook, well_keyed_requests, well_keyed_useWorkbook,
      well_keyed_requests, well_keyed_empty. }
  assert (workbooks second.2 !! JsString a = Some first.1) as Ha.
  { apply useWorkbook_keeps, requests_keep, useWorkbook_caches. }
  assert (workbooks second.2 !! JsString b = Some second.1) as Hb.
  { apply useWorkbook_caches. }
  split; [by destruct (Hkey _ _ Ha)|]. split.
  - intros Href. symmetry. by eapply Hinj.
  - intros Hab. rewrite Hab in Ha. congruence.
Qed.

(** X2: the number of workbook objects ever created is the number of
    distinct string forms among the arguments requested so far. *)
Theorem useWorkbook_created_distinct {Value : Type} (JsString : Value → string)
    (args : list Value) :
  created (requests JsString args emptySession) =
  size (list_to_set (JsString <$> args) : gset string).
Proof.
  rewrite <-requests_created by done.
  rewrite <-size_dom, requests_dom. simpl. rewrite dom_empty_L.
  by rewrite (left_id_L ∅ (∪)).
Qed.

End RegistryFacts.

(** ** Share permissions *)

Module ShareFacts.
Import Share.

Example view_flags : flagsOfAccess (Some view) = (true, false).
Proof. reflexivity. Qed.

Example edit_flags : flagsOfAccess (Some edit) = (false, true).
Proof. reflexivity. Qed.

Example read_write_is_edit : accessOfFlags true true = Some edit.
Proof. reflexivity. Qed.

(** C3 (amended): the two mappings are inverse to each other on the view
    role and on "no access" only.  Role to flags to role gives the role back
    exactly for the roles other than edit (edit is sent as read = false,
    write = true, which reads back as undefined); flags to role to flags gives
    the flags back exactly when write is false.  The role-to-flags mapping is
    still injective. *)
Theorem share_mappings_roundtrip :
  (∀ a, accessOfFlags (flagsOfAccess a).1 (flagsOfAccess a).2 = a ↔ a ≠ Some edit) ∧
  (∀ r w, flagsOfAccess (accessOfFlags r w) = (r, w) ↔ w = false) ∧
  (∀ a b, flagsOfAccess a = flagsOfAccess b → a = b) ∧
  (∀ p, access p ≠ Some edit →
        toUserPermission (keptAsSent (full_name p) (toPermissionUpdate p)) = p).
Proof.
  split_and!.
  - intros [[]|]; vm_compute; split; congruence.
  - intros [] []; vm_compute; split; congruence.
  - intros [[]|] [[]|]; vm_compute; congruence.
  - intros [e n [[]|]] Hne; simpl in Hne; [reflexivity|congruence|reflexivity].
Qed.

(** C3, as stated, fails for the edit role: what [updateSharePermissions]
    sends for it reads back through [getSharePermissions] as undefined, and
    the flags that read as edit are not the flags sent for edit. *)
Lemma share_mappings_not_inverse :
  access (toUserPermission
            (keptAsSent "Ada"
               (toPermissionUpdate
                  {| email := "ada@example.com"; full_name := "Ada";
                     access := Some edit |}))) ≠ Some edit ∧
  flagsOfAccess (accessOfFlags true true) ≠ (true, true).
Proof. split; vm_compute; congruence. Qed.
End ShareFacts.

(** ** Queries, charts and dashboards of a workbook *)

Module CrudFacts.
Import Crud.

Example remove_middle_query :
  let σ := run [CallRemoveQuery "q2"; UserConfirms 0;
                RemoteSettles 0 (Fulfilled Undefined)] sample in
  (name <$> queries (doc σ), route σ) = (["q1"; "q3"], "/workbook/wb/query/q1").
Proof. vm_compute. reflexivity. Qed.

Example remove_dismissed :
  let σ := run [CallRemoveQuery "q2"; UserDismisses 0] sample in
  (doc σ, pending σ, route σ) = (sampleDoc, [], "/workbook/wb").
Proof. vm_compute. reflexivity. Qed.

Example add_then_remove_chart :
  let σ := run [CallAddChart (Some "q3"); RemoteSettles 0 (Fulfilled (Inserted "c2"));
                CallRemoveChart "c2"; UserConfirms 0] sample in
  (name <$> charts (doc σ), route σ) = (["c1"; "c2"], "/workbook/wb/chart/c1").
Proof. vm_compute. reflexivity. Qed.

(** *** Removal *)

Lemma findIndex_absent (name' : string) (l : list Row) :
  findIndex name' l = (-1)%Z ↔ ∀ row, row ∈ l → name row ≠ name'.
Proof.
  unfold findIndex. destruct (list_find _ l) as [[i row]|] eqn:Hfind.
  - apply list_find_Some in Hfind as (Hi & Hname & _). split; [lia|].
    intros Hall. destruct (Hall row); [by eapply list_elem_of_lookup_2|done].
  - apply list_find_None in Hfind. split; [|done]. intros _ row Hrow.
    by apply (proj1 (Forall_forall _ _) Hfind).
Qed.

Lemma findIndex_found (name' : string) (l : list Row) (index : nat) :
  findIndex name' l = Z.of_nat index ↔
  ∃ row, l !! index = Some row ∧ name row = name' ∧
         ∀ j row', l !! j = Some row' → j < index → name row' ≠ name'.
Proof.
  unfold findIndex. destruct (list_find _ l) as [[i row]|] eqn:Hfind.
  - apply list_find_Some in Hfind as (Hi & Hname & Hfirst). split.
    + intros ->%Nat2Z.inj. by exists row.
    + intros (row' & Hrow' & Hname' & Hfirst'). f_equal.
      destruct (Nat.lt_trichotomy i index) as [Hlt|[->|Hlt]]; [|done|].
      * by destruct (Hfirst' _ _ Hi Hlt).
      * by destruct (Hfirst _ _ Hrow' Hlt).
  - apply list_find_None in Hfind. split; [lia|].
    intros (row & Hrow & Hname & _). exfalso.
    apply (proj1 (Forall_forall _ _) Hfind row); [|done].
    by eapply list_elem_of_lookup_2.
Qed.

Lemma append_eq_self (a b : string) : a +:+ b = a → b = "".
Proof.
  induction a as [|c a IH]; [done|].
  change (String c (a +:+ b) = String c a → b = "").
  intros [= H]. by apply IH.
Qed.

Lemma tab_path_not_root (wb type' name' : string) :
  "/workbook/" +:+ wb +:+ "/" +:+ type' +:+ "/" +:+ name' ≠ "/workbook/" +:+ wb.
Proof.
  intros H. apply (inj (String.append "/workbook/")) in H.
  apply append_eq_self in H. vm_compute in H. discriminate H.
Qed.

(** C10: when the confirmed name is not in the list ([findIndex] gives -1),
    confirming the dialog changes nothing but the dialog itself: no remote
    call is queued or sent, the document is untouched and the route stays. *)
Theorem remove_absent_is_noop (σ : State) (i : nat) (type : EntityType)
    (name' : string) :
  dialogs σ !! i = Some (Remove type name') →
  findIndex name' (rows type (doc σ)) = (-1)%Z →
  let σ' := step (UserConfirms i) σ in
  doc σ' = doc σ ∧ route σ' = route σ ∧ pending σ' = pending σ ∧
  effects σ' = effects σ ++ [DialogConfirmed (Remove type name')].
Proof.
  intros Hdialog Habsent. simpl. rewrite Hdialog. simpl.
  unfold _remove. simpl. rewrite Habsent. by rewrite decide_True.
Qed.

Lemma remove_absent_is_noop_witness :
  let σ := removeDashboard "d9" (removeQuery "q9" sample) in
  (let σ' := step (UserConfirms 0) σ in
   doc σ' = doc σ ∧ route σ' = route σ ∧ pending σ' = pending σ ∧
   effects σ' = effects σ ++ [DialogConfirmed (Remove query "q9")]) ∧
  (let σ' := step (UserConfirms 1) σ in
   doc σ' = doc σ ∧ route σ' = route σ ∧ pending σ' = pending σ ∧
   effects σ' = effects σ ++ [DialogConfirmed (Remove dashboard "d9")]).
Proof.
  split.
  - apply (remove_absent_is_noop _ 0 query "q9"); reflexivity.
  - apply (remove_absent_is_noop _ 1 dashboard "d9"); reflexivity.
Defined.

(** C4 (amended): confirming the removal of the item found at position
    [index] redirects to the tab of the item just before it when there is
    one, and to the workbook root exactly when the removed item is the first
    of its list, whether or not other items follow it. *)
Theorem remove_redirects_to_previous (σ : State) (type : EntityType)
    (name' : string) (index : nat) :
  findIndex name' (rows type (doc σ)) = Z.of_nat index →
  let σ' := runOnSuccess (Remove type name') σ in
  (route σ' = "/workbook/" +:+ workbook_name σ ↔ index = 0) ∧
  (∀ prev, index = S prev →
     ∃ row, rows type (doc σ) !! prev = Some row ∧
            route σ' = "/workbook/" +:+ workbook_name σ +:+ "/" +:+
                       typeName type +:+ "/" +:+ name row) ∧
  last (effects σ') = Some (RouterReplace (route σ')).
Proof.
  intros Hfound. simpl. unfold _remove. rewrite Hfound.
  rewrite decide_False by lia.
  destruct index as [|prev].
  - rewrite decide_False by lia. simpl. split_and!; [done|done|].
    by rewrite last_snoc.
  - rewrite decide_True by lia.
    replace (Z.to_nat (Z.of_nat (S prev) - 1)) with prev by lia. simpl.
    apply findIndex_found in Hfound as (row & Hrow & _).
    destruct (rows type (doc σ) !! prev) as [before|] eqn:Hprev.
    + simpl. split_and!.
      * split; [|done]. intros Hroot. by apply tab_path_not_root in Hroot.
      * intros ? [= <-]. by exists before.
      * by rewrite last_snoc.
    + apply lookup_ge_None in Hprev. apply lookup_lt_Some in Hrow. lia.
Qed.

Lemma remove_redirects_to_previous_witness :
  let σ' := runOnSuccess (Remove query "q3") sample in
  (route σ' = "/workbook/" +:+ workbook_name sample ↔ 2 = 0) ∧
  (∀ prev, 2 = S prev →
     ∃ row, rows query (doc sample) !! prev = Some row ∧
            route σ' = "/workbook/" +:+ workbook_name sample +:+ "/" +:+
                       typeName query +:+ "/" +:+ name row) ∧
  last (effects σ') = Some (RouterReplace (route σ')).
Proof. apply (remove_redirects_to_previous sample query "q3" 2). reflexivity. Defined.

(** C4, as stated, fails on a list of three queries: removing the first one
    redirects to the workbook root although two siblings remain, and removing
    the one in last position redirects to its neighbour's tab, not to the
    root. *)
Lemma remove_first_redirects_to_root :
  let first := run [CallRemoveQuery "q1"; UserConfirms 0] sample in
  let last' := run [CallRemoveQuery "q3"; UserConfirms 0] sample in
  length (queries (doc sample)) = 3 ∧
  last (effects first) = Some (RouterReplace "/workbook/wb") ∧
  last (effects last') = Some (RouterReplace "/workbook/wb/query/q2") ∧
  ¬ (∀ σ name' row,
       row ∈ queries (doc σ) → name row ≠ name' →
       findIndex name' (queries (doc σ)) ≠ (-1)%Z →
       route (runOnSuccess (Remove query name') σ) ≠
         "/workbook/" +:+ workbook_name σ).
Proof.
  split_and!; [reflexivity..|].
  intros Hclaim.
  apply (Hclaim sample "q1" (entry "q2" "Query 2")).
  - vm_compute. right. left.
  - vm_compute. congruence.
  - vm_compute. congruence.
  - reflexivity.
Qed.

(** *** Confirmation before deletion *)

Lemma gated_snoc (l : list Effect) e : gated l → allowed l e → gated (l ++ [e]).
Proof.
  intros Hl He k e' [[Hk Hlook]|[-> <-]]%lookup_snoc_Some.
  - rewrite take_app_le by lia. by apply Hl.
  - by rewrite take_app_length.
Qed.

Lemma confirmed_first_emit e σ :
  confirmed_first σ → allowed (effects σ) e → confirmed_first (emit e σ).
Proof.
  intros [Hg Hd] He. split; simpl.
  - by apply gated_snoc.
  - intros cb Hcb. apply elem_of_app. left. by apply Hd.
Qed.

Lemma confirmed_first_routerReplace path σ :
  confirmed_first σ → confirmed_first (routerReplace path σ).
Proof. intros [Hg Hd]. unfold routerReplace. by apply confirmed_first_emit. Qed.

Lemma confirmed_first_setDoc d σ : confirmed_first σ → confirmed_first (setDoc d σ).
Proof. done. Qed.

Lemma confirmed_first_remote r handlers σ :
  confirmed_first σ →
  (∀ cb, confirmationFor r = Some cb →
         last (effects σ) = Some (DialogConfirmed cb)) →
  confirmed_first (remote r handlers σ).
Proof.
  intros Hσ Hr. unfold remote.
  by apply (confirmed_first_emit (RemoteCall r)) in Hσ.
Qed.

Lemma confirmed_first_confirmDialog title' message cb σ :
  dialogFor cb = DialogShown title' message →
  confirmed_first σ → confirmed_first (confirmDialog title' message cb σ).
Proof.
  intros Hcb [Hg Hd]. split; simpl.
  - by apply gated_snoc.
  - intros cb' [Hcb'| ->%list_elem_of_singleton]%elem_of_app.
    + apply elem_of_app. left. by apply Hd.
    + apply elem_of_app. right. rewrite Hcb. by left.
Qed.

Lemma confirmed_first_settle o handlers σ :
  confirmed_first σ → confirmed_first (settle o handlers σ).2.
Proof.
  revert o σ. induction handlers as [|[cb|cb] rest IH]; intros o σ Hσ; simpl.
  - done.
  - destruct o as [v|reason]; [|by apply IH].
    destruct (runThen cb v σ) as [v' σ'] eqn:Hrun. apply IH.
    destruct cb; simpl in Hrun; simplify_eq; try done.
    + by apply confirmed_first_routerReplace.
    + by apply confirmed_first_routerReplace.
    + by destruct v; simplify_eq.
  - destruct o as [v|reason]; [by apply IH|].
    destruct (runCatch cb reason σ) as [o' σ'] eqn:Hrun. apply IH.
    destruct cb; simpl in Hrun; unfold showErrorToast in Hrun;
      simplify_eq; try done.
    by apply confirmed_first_emit.
Qed.

Lemma confirmed_first_runOnSuccess cb σ :
  confirmed_first σ → last (effects σ) = Some (DialogConfirmed cb) →
  confirmed_first (runOnSuccess cb σ).
Proof.
  intros Hσ Hlast. destruct cb as [type name'|]; simpl.
  - unfold _remove. case_decide; [done|].
    assert (confirmed_first
              (remote (DeleteDoc type name')
                 [Then (Splice type (Z.to_nat (findIndex name' (rows type (doc σ)))))]
                 σ)) as Hσ1.
    { apply confirmed_first_remote; [done|]. by intros cb [= <-]. }
    case_decide.
    + destruct (_ !! _); [|done]. by apply confirmed_first_routerReplace.
    + by apply confirmed_first_routerReplace.
  - apply confirmed_first_remote; [done|]. by intros cb [= <-].
Qed.

Lemma confirmed_first_step a σ : confirmed_first σ → confirmed_first (step a σ).
Proof.
  intros Hσ. destruct a; simpl.
  - by apply confirmed_first_remote.
  - by apply confirmed_first_remote.
  - by apply confirmed_first_remote.
  - by apply confirmed_first_confirmDialog.
  - by apply confirmed_first_confirmDialog.
  - by apply confirmed_first_confirmDialog.
  - by apply confirmed_first_confirmDialog.
  - by apply confirmed_first_remote.
  - by apply confirmed_first_remote.
  - by apply confirmed_first_remote.
  - destruct shouldSave; [|done]. by apply confirmed_first_remote.
  - destruct (dialogs σ !! dialog) as [cb|] eqn:Hcb; [|done].
    destruct Hσ as [Hg Hd].
    apply confirmed_first_runOnSuccess; [|simpl; by rewrite last_snoc].
    apply confirmed_first_emit.
    + split; [done|]. simpl. intros cb' Hcb'%list_elem_of_delete_inv. by apply Hd.
    + simpl. apply Hd. by eapply list_elem_of_lookup_2.
  - destruct (dialogs σ !! dialog) as [cb|] eqn:Hcb; [|done].
    destruct Hσ as [Hg Hd]. apply confirmed_first_emit; [|done].
    split; [done|]. simpl. intros cb' Hcb'%list_elem_of_delete_inv. by apply Hd.
  - destruct (pending σ !! call) as [p|] eqn:Hp; [|done].
    destruct (settle o (chain p) (setPending (delete call (pending σ)) σ))
      as [result σ'] eqn:Hsettle.
    apply confirmed_first_emit; [|done].
    change σ' with (result, σ').2. rewrite <-Hsettle.
    by apply confirmed_first_settle.
Qed.

Lemma confirmed_first_run actions σ :
  confirmed_first σ → confirmed_first (run actions σ).
Proof.
  revert σ. induction actions as [|a actions IH]; intros σ Hσ; simpl; [done|].
  by apply IH, confirmed_first_step.
Qed.

Lemma confirmed_first_initial name' d toast :
  confirmed_first (initial name' d toast).
Proof.
  split.
  - intros k e Hk. simpl in Hk. by rewrite lookup_nil in Hk.
  - by intros cb ?%elem_of_nil.
Qed.

(** C7: in every run of a workbook, a remote delete of a query, chart,
    dashboard or of the workbook itself is issued directly after the user
    confirmed the dialog of that very removal, and that dialog was shown
    before; no other step issues one. *)
Theorem delete_only_after_confirmation (name' : string) (d : Doc)
    (toast : string → Outcome)
    (actions : list Action) (k : nat) (r : Request) (cb : OnSuccess) :
  effects (run actions (initial name' d toast)) !! k = Some (RemoteCall r) →
  confirmationFor r = Some cb →
  ∃ j i, k = S j ∧
         effects (run actions (initial name' d toast)) !! j = Some (DialogConfirmed cb) ∧
         i < j ∧
         effects (run actions (initial name' d toast)) !! i = Some (dialogFor cb).
Proof.
  intros Hk Hcb.
  destruct (confirmed_first_run actions _ (confirmed_first_initial name' d toast))
    as [Hg _].
  set (l := effects (run actions (initial name' d toast))) in *.
  pose proof (Hg _ _ Hk cb Hcb) as Hlast.
  destruct k as [|j]; [done|].
  assert (S j < length l) as Hlen by by eapply lookup_lt_Some.
  rewrite last_lookup, length_take, Nat.min_l in Hlast by lia. simpl in Hlast.
  rewrite lookup_take_lt in Hlast by lia.
  pose proof (Hg _ _ Hlast) as Hshown. simpl in Hshown.
  apply list_elem_of_lookup in Hshown as [i Hi].
  apply lookup_take_Some in Hi as [Hi Hlt].
  by exists j, i.
Qed.

Lemma delete_only_after_confirmation_witness :
  let actions := [CallRemoveChart "c1"; CallDelete; UserConfirms 1; UserConfirms 0] in
  (∃ j i, 3 = S j ∧
     effects (run actions sample) !! j = Some (DialogConfirmed DeleteThisWorkbook) ∧
     i < j ∧ effects (run actions sample) !! i = Some (dialogFor DeleteThisWorkbook)) ∧
  (∃ j i, 5 = S j ∧
     effects (run actions sample) !! j = Some (DialogConfirmed (Remove chart "c1")) ∧
     i < j ∧ effects (run actions sample) !! i = Some (dialogFor (Remove chart "c1"))).
Proof.
  split.
  - apply (delete_only_after_confirmation "wb" sampleDoc (λ _, Fulfilled Undefined)
             _ 3 DeleteWorkbook);
      reflexivity.
  - apply (delete_only_after_confirmation "wb" sampleDoc (λ _, Fulfilled Undefined)
             _ 5 (DeleteDoc chart "c1"));
      reflexivity.
Defined.

(** *** Failing remote calls *)

Lemma settle_pending o handlers σ :
  pending (settle o handlers σ).2 = pending σ.
Proof.
  revert o σ. induction handlers as [|[cb|cb] rest IH]; intros o σ; simpl.
  - done.
  - destruct o as [v|reason]; [|by apply IH].
    destruct (runThen cb v σ) as [v' σ'] eqn:Hrun. rewrite IH.
    destruct cb; simpl in Hrun; simplify_eq; try done.
    by destruct v; simplify_eq.
  - destruct o as [v|reason]; [by apply IH|].
    destruct (runCatch cb reason σ) as [o' σ'] eqn:Hrun. rewrite IH.
    by destruct cb; simpl in Hrun; unfold showErrorToast in Hrun; simplify_eq.
Qed.

Lemma settle_rejected_then reason handlers σ :
  Forall (λ h, ∃ cb, h = Then cb) handlers →
  settle (Rejected reason) handlers σ = (Rejected reason, σ).
Proof. induction 1 as [|h rest [cb ->] _ IH]; simpl; [done|by apply IH]. Qed.

Lemma chained_remote r handlers σ :
  chained {| request := r; chain := handlers |} →
  Forall chained (pending σ) → Forall chained (pending (remote r handlers σ)).
Proof.
  intros Hp Hσ. simpl. apply Forall_app. split; [done|]. by constructor.
Qed.

Lemma chained_runOnSuccess cb σ :
  Forall chained (pending σ) → Forall chained (pending (runOnSuccess cb σ)).
Proof.
  intros Hσ. destruct cb as [type name'|]; simpl.
  - unfold _remove. case_decide; [done|].
    assert (Forall chained
              (pending σ ++
               [{| request := DeleteDoc type name';
                   chain := [Then (Splice type
                     (Z.to_nat (findIndex name' (rows type (doc σ)))))] |}]))
      as Hσ1.
    { apply Forall_app. split; [done|]. repeat constructor. by eexists. }
    case_decide; [|done]. by destruct (_ !! _).
  - apply chained_remote; [|done]. repeat constructor. by eexists.
Qed.

Lemma chained_step a σ :
  Forall chained (pending σ) → Forall chained (pending (step a σ)).
Proof.
  intros Hσ.
  assert (∀ cb, Forall (λ h, ∃ cb', h = Then cb') [Then cb]) as Hthen.
  { intros cb. repeat constructor. by eexists. }
  destruct a; simpl.
  - apply chained_remote; [apply Hthen|done].
  - apply chained_remote; [apply Hthen|done].
  - apply chained_remote; [apply Hthen|done].
  - done.
  - done.
  - done.
  - done.
  - apply chained_remote; [apply Hthen|done].
  - by apply chained_remote.
  - by apply chained_remote.
  - destruct shouldSave; [|done]. apply chained_remote; [|done]. constructor.
  - destruct (dialogs σ !! dialog) as [cb|]; [|done].
    by apply chained_runOnSuccess.
  - by destruct (dialogs σ !! dialog).
  - destruct (pending σ !! call) as [p|] eqn:Hp; [|done].
    destruct (settle o (chain p) (setPending (delete call (pending σ)) σ))
      as [result σ'] eqn:Hsettle. simpl.
    change σ' with (result, σ').2. rewrite <-Hsettle, settle_pending. simpl.
    by apply Forall_delete.
Qed.

Lemma chained_run actions σ :
  Forall chained (pending σ) → Forall chained (pending (run actions σ)).
Proof.
  revert σ. induction actions as [|a actions IH]; intros σ Hσ; simpl; [done|].
  by apply IH, chained_step.
Qed.

Lemma showErrorToastResult_settle o handlers σ :
  showErrorToastResult (settle o handlers σ).2 = showErrorToastResult σ.
Proof.
  revert o σ. induction handlers as [|[cb|cb] rest IH]; intros o σ; simpl.
  - done.
  - destruct o as [v|reason]; [|by apply IH].
    destruct (runThen cb v σ) as [v' σ'] eqn:Hrun. rewrite IH.
    destruct cb; simpl in Hrun; simplify_eq; try done.
    by destruct v; simplify_eq.
  - destruct o as [v|reason]; [by apply IH|].
    destruct (runCatch cb reason σ) as [o' σ'] eqn:Hrun. rewrite IH.
    by destruct cb; simpl in Hrun; unfold showErrorToast in Hrun; simplify_eq.
Qed.

Lemma showErrorToastResult_step a σ :
  showErrorToastResult (step a σ) = showErrorToastResult σ.
Proof.
  destruct a; simpl; try done.
  - by destruct shouldSave.
  - destruct (dialogs σ !! dialog) as [[type name'|]|]; simpl; try done.
    unfold _remove. case_decide; [done|]. case_decide; [|done].
    by destruct (_ !! _).
  - by destruct (dialogs σ !! dialog).
  - destruct (pending σ !! call) as [p|]; [|done].
    destruct (settle o (chain p) (setPending (delete call (pending σ)) σ))
      as [result σ'] eqn:Hsettle. simpl.
    change σ' with (result, σ').2. by rewrite <-Hsettle, showErrorToastResult_settle.
Qed.

Lemma showErrorToastResult_run actions σ :
  showErrorToastResult (run actions σ) = showErrorToastResult σ.
Proof.
  revert σ. induction actions as [|a actions IH]; intros σ; simpl; [done|].
  by rewrite IH, showErrorToastResult_step.
Qed.

(** C8 (amended): when the call made by [updateSharePermissions] is
    rejected, the rejection is caught and shown as an error toast, and the
    promise handed to the caller settles the way the call of [showErrorToast]
    ends: fulfilled when the helper returns, rejected when it throws, so the
    failure stays away from the caller only if the helper does not throw;
    the [track_view] call made after a load catches its rejection too and
    drops it without a toast; every other remote call of the module (insert,
    delete, save, workbook delete, get share permissions) carries no
    rejection handler, so its rejection passes through unchanged and no
    handler runs.  Nothing the module does changes how the helper ends. *)
Theorem rejection_handling (name' : string) (d : Doc) (toast : string → Outcome)
    (actions : list Action) (p : Pending) (reason : string) (σ : State) :
  p ∈ pending (run actions (initial name' d toast)) →
  settle (Rejected reason) (chain p) σ =
    match request p with
    | UpdateSharePermissions _ _ =>
        (showErrorToastResult σ reason, emit (ErrorToast reason) σ)
    | TrackView => (Fulfilled Undefined, σ)
    | _ => (Rejected reason, σ)
    end ∧
  showErrorToastResult (run actions (initial name' d toast)) = toast.
Proof.
  intros Hp. split; [|by rewrite showErrorToastResult_run].
  assert (chained p) as Hchained.
  { eapply (proj1 (Forall_forall _ _)); [|exact Hp].
    apply chained_run. constructor. }
  unfold chained in Hchained.
  destruct (request p); try (by apply settle_rejected_then);
    by rewrite Hchained.
Qed.

Lemma rejection_handling_witness :
  let actions := [CallUpdateSharePermissions (Some Share.view)
                    [{| Share.email := "ada@example.com"; Share.full_name := "Ada";
                        Share.access := Some Share.edit |}];
                  CallRemoveQuery "q1"; UserConfirms 0] in
  let update :=
    {| request := UpdateSharePermissions (Some Share.view)
                    [{| Share.upd_user := "ada@example.com";
                        Share.upd_read := false; Share.upd_write := true |}];
       chain := [Catch ShowErrorToast] |} in
  let deletion :=
    {| request := DeleteDoc query "q1"; chain := [Then (Splice query 0)] |} in
  let rethrowing := initial "wb" sampleDoc Rejected in
  pending (run actions sample) = [update; deletion] ∧
  (settle (Rejected "403") (chain update) sample =
     (Fulfilled Undefined, emit (ErrorToast "403") sample) ∧
   showErrorToastResult (run actions sample) = (λ _, Fulfilled Undefined)) ∧
  (settle (Rejected "403") (chain update) rethrowing =
     (Rejected "403", emit (ErrorToast "403") rethrowing) ∧
   showErrorToastResult (run actions rethrowing) = Rejected) ∧
  (settle (Rejected "403") (chain deletion) sample = (Rejected "403", sample) ∧
   showErrorToastResult (run actions sample) = (λ _, Fulfilled Undefined)).
Proof.
  intros actions update deletion rethrowing.
  split; [|split; [|split]].
  - reflexivity.
  - apply (rejection_handling "wb" sampleDoc (λ _, Fulfilled Undefined) actions
             update "403" sample).
    vm_compute. left.
  - apply (rejection_handling "wb" sampleDoc Rejected actions update "403"
             rethrowing).
    vm_compute. left.
  - apply (rejection_handling "wb" sampleDoc (λ _, Fulfilled Undefined) actions
             deletion "403" sample).
    vm_compute. right. left.
Defined.

(** C8, as stated, fails for the [track_view] call: it is a remote call of
    the module other than the share-permission update, and its rejection does
    not propagate. *)
Lemma track_view_rejection_is_dropped :
  let σ := run [AfterLoad; RemoteSettles 0 (Rejected "timeout")] sample in
  effects σ = [RemoteCall TrackView; Settled TrackView (Fulfilled Undefined)] ∧
  ¬ (∀ p reason,
       p ∈ pending (run [AfterLoad] sample) →
       (∀ org ps, request p ≠ UpdateSharePermissions org ps) →
       (settle (Rejected reason) (chain p) sample).1 = Rejected reason).
Proof.
  split; [reflexivity|]. intros Hclaim.
  specialize (Hclaim {| request := TrackView; chain := [Catch Ignore] |} "timeout").
  discriminate Hclaim; [by left|done].
Qed.
(** *** Adding, removing and deleting, step by step *)

Lemma rows_setRows type l d : rows type (setRows type l d) = l.
Proof. by destruct type. Qed.

Lemma rows_setRows_ne type type' l d :
  type' ≠ type → rows type' (setRows type l d) = rows type' d.
Proof. by destruct type, type'. Qed.

Lemma lookup_snoc_length {A} (l : list A) x : (l ++ [x]) !! length l = Some x.
Proof. apply list_lookup_middle. done. Qed.

Lemma delete_snoc_length {A} (l : list A) x : delete (length l) (l ++ [x]) = l.
Proof. rewrite delete_middle. apply app_nil_r. Qed.

(** A confirmed removal of a listed name: the delete is sent with the found
    position captured for the later splice, and the route is replaced. *)
Lemma _remove_found type name' σ (index : nat) :
  findIndex name' (rows type (doc σ)) = Z.of_nat index →
  ∃ path, _remove type name' σ =
          routerReplace path
            (remote (DeleteDoc type name') [Then (Splice type index)] σ).
Proof.
  intros Hfound. unfold _remove. rewrite Hfound.
  rewrite decide_False by lia. rewrite Nat2Z.id.
  destruct index as [|prev].
  - rewrite decide_False by lia. by eexists.
  - rewrite decide_True by lia.
    replace (Z.to_nat (Z.of_nat (S prev) - 1)) with prev by lia. simpl.
    apply findIndex_found in Hfound as (row & Hrow & _).
    destruct (rows type (doc σ) !! prev) as [before|] eqn:Hprev.
    + by eexists.
    + apply lookup_ge_None in Hprev. apply lookup_lt_Some in Hrow. lia.
Qed.

(** X12: adding an entity changes nothing locally until the insert returns.
    When it is fulfilled with the new name, one entry with that name and the
    title "<Kind> <count + 1>" is appended to the list of that kind, the
    other lists are untouched and the route becomes the tab of the new entry;
    when it is rejected, document and route stay as they were.  Because the
    count is read when the call is made, a second add made while the first is
    in flight asks for the same title. *)
Theorem add_then_settle (type : EntityType) (q q' : option string)
    (σ : State) (inserted reason : string) :
  let σ1 := add type q σ in
  let i := length (pending σ) in
  let ok := step (RemoteSettles i (Fulfilled (Inserted inserted))) σ1 in
  let ko := step (RemoteSettles i (Rejected reason)) σ1 in
  let expected := label type +:+ pretty (length (rows type (doc σ)) + 1) in
  (doc σ1 = doc σ ∧ route σ1 = route σ ∧
   last (effects σ1) = Some (RemoteCall (InsertDoc type expected)) ∧
   last (effects (add type q' σ1)) = Some (RemoteCall (InsertDoc type expected))) ∧
  (∃ row, rows type (doc ok) = rows type (doc σ) ++ [row] ∧
          name row = inserted ∧ title row = expected) ∧
  (∀ type', type' ≠ type → rows type' (doc ok) = rows type' (doc σ)) ∧
  route ok = "/workbook/" +:+ workbook_name σ +:+ "/" +:+ typeName type +:+ "/"
             +:+ inserted ∧
  pending ok = pending σ ∧
  (doc ko = doc σ ∧ route ko = route σ ∧ pending ko = pending σ).
Proof.
  intros σ1 i ok ko expected.
  assert (∃ rq ct,
    σ1 = remote (InsertDoc type expected)
           [Then (PushAndActivate type expected rq ct)] σ) as (rq & ct & Hσ1).
  { unfold σ1, expected. destruct type; simpl; by eexists _, _. }
  clearbody σ1. split_and!.
  - by rewrite Hσ1.
  - by rewrite Hσ1.
  - rewrite Hσ1. simpl. by rewrite last_snoc.
  - assert (doc σ1 = doc σ) as Hdoc by by rewrite Hσ1.
    unfold expected. destruct type; simpl; rewrite last_snoc;
      unfold rows; by rewrite Hdoc.
  - unfold ok, i. rewrite Hσ1. simpl. rewrite lookup_snoc_length. simpl.
    eexists. rewrite rows_setRows. split; [done|]. done.
  - intros type' Hne. unfold ok, i. rewrite Hσ1. simpl.
    rewrite lookup_snoc_length. simpl. by rewrite rows_setRows_ne.
  - unfold ok, i. rewrite Hσ1. simpl. by rewrite lookup_snoc_length.
  - unfold ok, i. rewrite Hσ1. simpl. rewrite lookup_snoc_length. simpl.
    apply delete_snoc_length.
  - unfold ko, i. rewrite Hσ1. simpl. by rewrite lookup_snoc_length.
  - unfold ko, i. rewrite Hσ1. simpl. by rewrite lookup_snoc_length.
  - unfold ko, i. rewrite Hσ1. simpl. rewrite lookup_snoc_length. simpl.
    apply delete_snoc_length.
Qed.

(** The route a confirmed removal of the entry at [index] replaces the
    current one with. *)
Lemma _remove_found_path type name' σ (index : nat) :
  findIndex name' (rows type (doc σ)) = Z.of_nat index →
  ∃ path, _remove type name' σ =
          routerReplace path
            (remote (DeleteDoc type name') [Then (Splice type index)] σ) ∧
          (index = 0 → path = "/workbook/" +:+ workbook_name σ) ∧
          (∀ prev, index = S prev →
             ∃ row, rows type (doc σ) !! prev = Some row ∧
                    path = "/workbook/" +:+ workbook_name σ +:+ "/" +:+
                           typeName type +:+ "/" +:+ name row).
Proof.
  intros Hfound. unfold _remove. rewrite Hfound.
  rewrite decide_False by lia. rewrite Nat2Z.id.
  destruct index as [|prev].
  - rewrite decide_False by lia. eexists. split_and!; [done|done|done].
  - rewrite decide_True by lia.
    replace (Z.to_nat (Z.of_nat (S prev) - 1)) with prev by lia. simpl.
    apply findIndex_found in Hfound as (row & Hrow & _).
    destruct (rows type (doc σ) !! prev) as [before|] eqn:Hprev.
    + eexists. split_and!; [done|done|]. intros ? [= <-]. by exists before.
    + apply lookup_ge_None in Hprev. apply lookup_lt_Some in Hrow. lia.
Qed.

(** X13: removing a listed entity, step by step.  Confirming closes the
    dialog, sends the delete and replaces the route at once, with the list
    still whole: the new route is the workbook root when the entry is the
    first of its list, and the tab of the entry just before it otherwise; the
    confirmation, the remote call and the route replacement are the only
    effects, in this order.  When the delete is fulfilled, exactly the first
    entry with that name leaves its list and nothing else changes; when it is
    rejected the entry stays, but the route is not put back: in both cases
    the route stays the one chosen at confirmation and the settlement is the
    only further effect. *)
Theorem remove_then_settle (σ : State) (i : nat) (type : EntityType)
    (name' reason : string) (index : nat) :
  dialogs σ !! i = Some (Remove type name') →
  findIndex name' (rows type (doc σ)) = Z.of_nat index →
  let σ1 := step (UserConfirms i) σ in
  let j := length (pending σ) in
  let ok := step (RemoteSettles j (Fulfilled Undefined)) σ1 in
  let ko := step (RemoteSettles j (Rejected reason)) σ1 in
  (doc σ1 = doc σ ∧
   pending σ1 = pending σ ++ [{| request := DeleteDoc type name';
                                 chain := [Then (Splice type index)] |}] ∧
   dialogs σ1 = delete i (dialogs σ) ∧
   effects σ1 = effects σ ++ [DialogConfirmed (Remove type name');
                              RemoteCall (DeleteDoc type name');
                              RouterReplace (route σ1)] ∧
   (index = 0 → route σ1 = "/workbook/" +:+ workbook_name σ) ∧
   (∀ prev, index = S prev →
      ∃ row, rows type (doc σ) !! prev = Some row ∧
             route σ1 = "/workbook/" +:+ workbook_name σ +:+ "/" +:+
                        typeName type +:+ "/" +:+ name row)) ∧
  (rows type (doc ok) = delete index (rows type (doc σ)) ∧
   (∀ type', type' ≠ type → rows type' (doc ok) = rows type' (doc σ)) ∧
   route ok = route σ1 ∧ pending ok = pending σ ∧
   effects ok = effects σ1 ++ [Settled (DeleteDoc type name') (Fulfilled Undefined)]) ∧
  (doc ko = doc σ ∧ route ko = route σ1 ∧ pending ko = pending σ ∧
   effects ko = effects σ1 ++ [Settled (DeleteDoc type name') (Rejected reason)]).
Proof.
  intros Hdialog Hfound σ1 j ok ko.
  assert (∃ path,
    σ1 = routerReplace path
           (remote (DeleteDoc type name') [Then (Splice type index)]
              (emit (DialogConfirmed (Remove type name'))
                 (setDialogs (delete i (dialogs σ)) σ))) ∧
    (index = 0 → path = "/workbook/" +:+ workbook_name σ) ∧
    (∀ prev, index = S prev →
       ∃ row, rows type (doc σ) !! prev = Some row ∧
              path = "/workbook/" +:+ workbook_name σ +:+ "/" +:+
                     typeName type +:+ "/" +:+ name row))
    as (path & Hσ1 & Hroot & Htab).
  { unfold σ1. simpl. rewrite Hdialog. simpl.
    by apply (_remove_found_path type name'
                (emit (DialogConfirmed (Remove type name'))
                   (setDialogs (delete i (dialogs σ)) σ))). }
  split_and!.
  - by rewrite Hσ1.
  - by rewrite Hσ1.
  - by rewrite Hσ1.
  - rewrite Hσ1. simpl. by rewrite <- !(assoc_L (++)).
  - intros Hindex. rewrite Hσ1. by apply Hroot.
  - intros prev Hindex. rewrite Hσ1. by apply Htab.
  - unfold ok, j. rewrite Hσ1. simpl. rewrite lookup_snoc_length. simpl.
    by rewrite rows_setRows.
  - intros type' Hne. unfold ok, j. rewrite Hσ1. simpl.
    rewrite lookup_snoc_length. simpl. by rewrite rows_setRows_ne.
  - unfold ok, j. rewrite Hσ1. simpl. by rewrite lookup_snoc_length.
  - unfold ok, j. rewrite Hσ1. simpl. rewrite lookup_snoc_length. simpl.
    apply delete_snoc_length.
  - unfold ok, j. rewrite Hσ1. simpl. by rewrite lookup_snoc_length.
  - unfold ko, j. rewrite Hσ1. simpl. by rewrite lookup_snoc_length.
  - unfold ko, j. rewrite Hσ1. simpl. by rewrite lookup_snoc_length.
  - unfold ko, j. rewrite Hσ1. simpl. rewrite lookup_snoc_length. simpl.
    apply delete_snoc_length.
  - unfold ko, j. rewrite Hσ1. simpl. by rewrite lookup_snoc_length.
Qed.

Lemma remove_then_settle_witness :
  let σ := removeQuery "q2" sample in
  let σ1 := step (UserConfirms 0) σ in
  let ok := step (RemoteSettles 0 (Fulfilled Undefined)) σ1 in
  let ko := step (RemoteSettles 0 (Rejected "gone")) σ1 in
  (doc σ1 = doc σ ∧
   pending σ1 = pending σ ++ [{| request := DeleteDoc query "q2";
                                 chain := [Then (Splice query 1)] |}] ∧
   dialogs σ1 = delete 0 (dialogs σ) ∧
   effects σ1 = effects σ ++ [DialogConfirmed (Remove query "q2");
                              RemoteCall (DeleteDoc query "q2");
                              RouterReplace (route σ1)] ∧
   (1 = 0 → route σ1 = "/workbook/" +:+ workbook_name σ) ∧
   (∀ prev, 1 = S prev →
      ∃ row, rows query (doc σ) !! prev = Some row ∧
             route σ1 = "/workbook/" +:+ workbook_name σ +:+ "/" +:+
                        typeName query +:+ "/" +:+ name row)) ∧
  (rows query (doc ok) = delete 1 (rows query (doc σ)) ∧
   (∀ type', type' ≠ query → rows type' (doc ok) = rows type' (doc σ)) ∧
   route ok = route σ1 ∧ pending ok = pending σ ∧
   effects ok = effects σ1 ++ [Settled (DeleteDoc query "q2") (Fulfilled Undefined)]) ∧
  (doc ko = doc σ ∧ route ko = route σ1 ∧ pending ko = pending σ ∧
   effects ko = effects σ1 ++ [Settled (DeleteDoc query "q2") (Rejected "gone")]).
Proof.
  apply (remove_then_settle (removeQuery "q2" sample) 0 query "q2" "gone" 1);
    reflexivity.
Defined.

Lemma pending_routerReplace path σ :
  pending (routerReplace path σ) = pending σ.
Proof. done. Qed.

Lemma pending_remote r handlers σ :
  pending (remote r handlers σ) = pending σ ++ [{| request := r; chain := handlers |}].
Proof. done. Qed.

Lemma doc_runOnSuccess_remove type name' σ :
  doc (runOnSuccess (Remove type name') σ) = doc σ.
Proof.
  simpl. unfold _remove. case_decide; [done|].
  case_decide; [|done]. simpl. by destruct (_ !! _).
Qed.

(** X14: the position to splice is fixed when a removal is confirmed.  When
    two removals from one list are confirmed before either delete has
    returned, the outcome depends on the order in which the deletes return:
    if the delete of the later entry returns first, both entries leave the
    list; if the delete of the earlier entry returns first, the second splice
    is applied to the list that has already shrunk, so the later entry stays
    listed and the position after it is spliced instead. *)
Theorem concurrent_removals (σ : State) (type : EntityType)
    (earlier later : string) (i j : nat) :
  findIndex earlier (rows type (doc σ)) = Z.of_nat i →
  findIndex later (rows type (doc σ)) = Z.of_nat j →
  i < j →
  let l := rows type (doc σ) in
  let σ2 := runOnSuccess (Remove type later) (runOnSuccess (Remove type earlier) σ) in
  let k := length (pending σ) in
  let done := Fulfilled Undefined in
  let later_first := step (RemoteSettles k done) (step (RemoteSettles (S k) done) σ2) in
  let earlier_first := step (RemoteSettles k done) (step (RemoteSettles k done) σ2) in
  rows type (doc later_first) = delete i (delete j l) ∧
  rows type (doc earlier_first) = delete j (delete i l) ∧
  (∃ row, name row = later ∧ row ∈ rows type (doc earlier_first)).
Proof.
  intros Hi Hj Hij l σ2 k done later_first earlier_first.
  destruct (_remove_found type earlier σ i Hi) as [path1 H1].
  change (_remove type earlier σ) with (runOnSuccess (Remove type earlier) σ) in H1.
  assert (findIndex later
            (rows type (doc (runOnSuccess (Remove type earlier) σ)))
          = Z.of_nat j) as Hj'.
  { by rewrite doc_runOnSuccess_remove. }
  destruct (_remove_found type later _ j Hj') as [path2 H2].
  change (_remove type later ?s) with (runOnSuccess (Remove type later) s) in H2.
  assert (pending σ2 =
          pending σ ++ [{| request := DeleteDoc type earlier;
                           chain := [Then (Splice type i)] |};
                        {| request := DeleteDoc type later;
                           chain := [Then (Splice type j)] |}]) as Hpending.
  { unfold σ2. rewrite H2, pending_routerReplace, pending_remote.
    rewrite H1, pending_routerReplace, pending_remote.
    by rewrite <-app_assoc. }
  assert (doc σ2 = doc σ) as Hdoc.
  { unfold σ2. by rewrite !doc_runOnSuccess_remove. }
  clearbody σ2.
  assert (rows type (doc earlier_first) = delete j (delete i l)) as Hearlier.
  { unfold earlier_first, k. simpl. rewrite Hpending.
    rewrite list_lookup_middle by done. simpl. rewrite delete_middle.
    rewrite list_lookup_middle by done. simpl.
    by rewrite !rows_setRows, Hdoc. }
  split_and!; [|done|].
  - set (p1 := {| request := DeleteDoc type earlier;
                  chain := [Then (Splice type i)] |}) in *.
    set (p2 := {| request := DeleteDoc type later;
                  chain := [Then (Splice type j)] |}) in *.
    assert (pending σ2 = (pending σ ++ [p1]) ++ [p2]) as Hpending'.
    { by rewrite Hpending, <-app_assoc. }
    assert (S k = length (pending σ ++ [p1])) as Hk.
    { rewrite length_app. simpl. unfold k. lia. }
    unfold later_first. rewrite Hk. simpl. rewrite Hpending'.
    rewrite lookup_snoc_length. simpl. rewrite delete_snoc_length.
    unfold k. rewrite lookup_snoc_length. simpl.
    by rewrite !rows_setRows, Hdoc.
  - apply findIndex_found in Hj as (row & Hrow & Hname & _).
    exists row. split; [done|]. rewrite Hearlier.
    apply (list_elem_of_lookup_2 _ (j - 1)).
    rewrite list_lookup_delete_lt by lia. rewrite list_lookup_delete_ge by lia.
    by replace (S (j - 1)) with j by lia.
Qed.

Lemma concurrent_removals_witness :
  let σ2 := runOnSuccess (Remove query "q2") (runOnSuccess (Remove query "q1") sample) in
  let done := Fulfilled Undefined in
  let later_first := step (RemoteSettles 0 done) (step (RemoteSettles 1 done) σ2) in
  let earlier_first := step (RemoteSettles 0 done) (step (RemoteSettles 0 done) σ2) in
  rows query (doc later_first) = delete 0 (delete 1 (rows query (doc sample))) ∧
  rows query (doc earlier_first) = delete 1 (delete 0 (rows query (doc sample))) ∧
  (∃ row, name row = "q2" ∧ row ∈ rows query (doc earlier_first)).
Proof.
  apply (concurrent_removals sample query "q1" "q2" 0 1); [reflexivity..|lia].
Defined.

(** X15: deleting the workbook.  Confirming the dialog sends the delete and
    leaves the route alone; the route becomes "/workbook" only when the
    delete is fulfilled, and stays where it was when it is rejected.  The
    document in memory is not touched in either case. *)
Theorem deleteWorkbook_then_settle (σ : State) (i : nat) (reason : string) :
  dialogs σ !! i = Some DeleteThisWorkbook →
  let σ1 := step (UserConfirms i) σ in
  let k := length (pending σ) in
  let ok := step (RemoteSettles k (Fulfilled Undefined)) σ1 in
  let ko := step (RemoteSettles k (Rejected reason)) σ1 in
  (route σ1 = route σ ∧ doc σ1 = doc σ ∧
   last (effects σ1) = Some (RemoteCall DeleteWorkbook)) ∧
  (route ok = "/workbook" ∧ doc ok = doc σ) ∧
  (route ko = route σ ∧ doc ko = doc σ).
Proof.
  intros Hdialog σ1 k ok ko.
  unfold ok, ko, σ1, k. simpl. rewrite Hdialog. simpl.
  rewrite lookup_snoc_length. simpl. rewrite last_snoc. done.
Qed.

Lemma deleteWorkbook_then_settle_witness :
  let σ := deleteWorkbook sample in
  let σ1 := step (UserConfirms 0) σ in
  let ok := step (RemoteSettles 0 (Fulfilled Undefined)) σ1 in
  let ko := step (RemoteSettles 0 (Rejected "denied")) σ1 in
  (route σ1 = route σ ∧ doc σ1 = doc σ ∧
   last (effects σ1) = Some (RemoteCall DeleteWorkbook)) ∧
  (route ok = "/workbook" ∧ doc ok = doc σ) ∧
  (route ko = route σ ∧ doc ko = doc σ).
Proof.
  apply (deleteWorkbook_then_settle (deleteWorkbook sample) 0 "denied").
  reflexivity.
Defined.

(** X16: [removeQuery], [removeChart], [removeDashboard] and the workbook's
    [delete] do nothing themselves but show their dialog; dismissing that
    dialog puts the workbook back as it was: document, route, pending calls
    and open dialogs are those from before the call. *)
Theorem dismissed_removal_restores (a : Action) (cb : OnSuccess) (σ : State) :
  opens a = Some cb →
  let σ1 := step a σ in
  let σ2 := step (UserDismisses (length (dialogs σ))) σ1 in
  (doc σ1 = doc σ ∧ route σ1 = route σ ∧ pending σ1 = pending σ ∧
   dialogs σ1 = dialogs σ ++ [cb] ∧ effects σ1 = effects σ ++ [dialogFor cb]) ∧
  (doc σ2 = doc σ ∧ route σ2 = route σ ∧ pending σ2 = pending σ ∧
   dialogs σ2 = dialogs σ ∧
   effects σ2 = effects σ ++ [dialogFor cb; DialogDismissed cb]).
Proof.
  intros Hopens σ1 σ2. unfold σ2, σ1.
  destruct a; simpl in Hopens; simplify_eq; simpl;
    rewrite lookup_snoc_length; simpl; rewrite delete_snoc_length;
    by rewrite <-app_assoc.
Qed.

Lemma dismissed_removal_restores_witness :
  let σ := removeQuery "q1" sample in
  let σ1 := step (CallRemoveChart "c1") σ in
  let σ2 := step (UserDismisses (length (dialogs σ))) σ1 in
  (doc σ1 = doc σ ∧ route σ1 = route σ ∧ pending σ1 = pending σ ∧
   dialogs σ1 = dialogs σ ++ [Remove chart "c1"] ∧
   effects σ1 = effects σ ++ [dialogFor (Remove chart "c1")]) ∧
  (doc σ2 = doc σ ∧ route σ2 = route σ ∧ pending σ2 = pending σ ∧
   dialogs σ2 = dialogs σ ∧
   effects σ2 = effects σ ++ [dialogFor (Remove chart "c1");
                              DialogDismissed (Remove chart "c1")]).
Proof.
  apply (dismissed_removal_restores (CallRemoveChart "c1") (Remove chart "c1")).
  reflexivity.
Defined.

(** X17: [updateSharePermissions] sends one row per user permission, in the
    given order and under the user's email, passes the organization access
    through, and never sends a row with both [read] and [write] set; the
    workbook itself is not changed by the call. *)
Theorem updateSharePermissions_payload (org : option Share.Access)
    (ps : list Share.WorkbookUserPermission) (σ : State) :
  let σ1 := updateSharePermissions org ps σ in
  ∃ sent,
    effects σ1 = effects σ ++ [RemoteCall (UpdateSharePermissions org sent)] ∧
    Share.upd_user <$> sent = Share.email <$> ps ∧
    Forall (λ u, Share.upd_read u && Share.upd_write u = false) sent ∧
    doc σ1 = doc σ ∧ route σ1 = route σ.
Proof.
  intros σ1. exists (Share.toPermissionUpdate <$> ps). split_and!; try done.
  - by rewrite <-list_fmap_compose.
  - apply Forall_fmap, Forall_forall. intros [e n [[]|]] _; done.
Qed.

(** X18: what [getSharePermissions] hands to its caller.  When the call is
    fulfilled, the caller gets one permission per backend row, in the backend's
    order and under the row's user, with the organization access passed
    through; a row counts as edit only with both flags set and as no access
    whenever [read] is off, whatever [write] says.  When the call is rejected
    the caller's promise is rejected with the same reason.  The workbook is
    not changed either way. *)
Theorem getSharePermissions_result (org : option Share.Access)
    (rows' : list Share.BackendPermission) (reason : string) (σ : State) :
  let σ1 := getSharePermissions σ in
  let k := length (pending σ) in
  let ok := step (RemoteSettles k (Fulfilled (BackendPermissions org rows'))) σ1 in
  let ko := step (RemoteSettles k (Rejected reason)) σ1 in
  (∃ given,
     last (effects ok) =
       Some (Settled GetSharePermissions (Fulfilled (SharePermissions org given))) ∧
     Share.email <$> given = Share.user <$> rows' ∧
     Forall2 (λ b u,
                (Share.access u = Some Share.edit ↔
                 Share.read b = true ∧ Share.write b = true) ∧
                (Share.access u = None ↔ Share.read b = false))
             rows' given) ∧
  last (effects ko) = Some (Settled GetSharePermissions (Rejected reason)) ∧
  doc ok = doc σ ∧ route ok = route σ ∧ doc ko = doc σ ∧ route ko = route σ.
Proof.
  intros σ1 k ok ko. unfold ok, ko, σ1, k. simpl.
  rewrite lookup_snoc_length. simpl. rewrite !last_snoc. split_and!; try done.
  exists (Share.toUserPermission <$> rows'). split_and!; [done| |].
  - by rewrite <-list_fmap_compose.
  - apply Forall2_fmap_r, Forall_Forall2_diag, Forall_forall.
    intros [u n [] []] _; simpl; split; split; intros; try done;
      destruct_and?; done.
Qed.

End CrudFacts.

(** ** Auto-save *)

Module AutoSaveFacts.
Import AutoSave.

Example saves_after_debounce :
  saves (run (SetDirty true :: SetEnableAutoSave true :: replicate 2000 Tick) initial) = 1.
Proof. vm_compute. reflexivity. Qed.

Example no_save_before_debounce :
  saves (run (SetDirty true :: SetEnableAutoSave true :: replicate 1999 Tick) initial) = 0.
Proof. vm_compute. reflexivity. Qed.

Example change_restarts_debounce :
  saves (run (SetEnableAutoSave true :: replicate 1500 Tick ++
              SetDirty true :: replicate 1999 Tick) initial) = 0.
Proof. vm_compute. reflexivity. Qed.

Example paused_is_not_saved :
  saves (run (SetDirty true :: SetPause true :: SetEnableAutoSave true ::
              replicate 5000 Tick) initial) = 0.
Proof. vm_compute. reflexivity. Qed.

(** Disabled one millisecond before the debounce runs out: the waiting
    invocation still saves; nothing more is saved after it. *)
Example disabled_still_saves_once :
  saves (run (SetEnableAutoSave true :: SetDirty true :: replicate 1999 Tick ++
              SetEnableAutoSave false :: replicate 5000 Tick) initial) = 1.
Proof. vm_compute. reflexivity. Qed.

(** Enabled at 0 ms, disabled and enabled again at 1000 ms: the first
    watcher's invocation saves at 2000 ms, the second watcher's at 3000 ms. *)
Example reenabled_saves_twice :
  let prefix := SetDirty true :: SetEnableAutoSave true :: replicate 1000 Tick ++
                [SetEnableAutoSave false; SetEnableAutoSave true] in
  saves (run (prefix ++ replicate 999 Tick) initial) = 0 ∧
  saves (run (prefix ++ replicate 1000 Tick) initial) = 1 ∧
  saves (run (prefix ++ replicate 1999 Tick) initial) = 1 ∧
  saves (run (prefix ++ replicate 2000 Tick) initial) = 2.
Proof. vm_compute. done. Qed.

Lemma consistent_initial : consistent initial.
Proof. done. Qed.

Lemma punctual_initial : punctual initial.
Proof. constructor. Qed.

Lemma consistent_refresh σ :
  (match stopAutoSaveWatcher σ with
   | Some h =>
       enable_auto_save σ = true ∧
       ∃ w, watchers σ = [(h, w)] ∧
            ∀ r v, timer w = Some (r, v) → v = observed w ∧ 1 ≤ r ≤ debounce
   | None => enable_auto_save σ = false ∧ watchers σ = []
   end) →
  consistent (refresh σ).
Proof.
  unfold consistent, refresh. simpl.
  destruct (stopAutoSaveWatcher σ) as [h|]; [|by intros [-> ->]].
  intros (Hen & w & Hw & Htimer). split; [done|]. rewrite Hw. simpl.
  eexists. split; [done|]. unfold observe, shouldSave. simpl.
  case_bool_decide as Hobs; simpl.
  - split; [done|]. intros r v Hrv. destruct (Htimer r v Hrv) as [-> ?].
    by rewrite Hobs.
  - split; [done|]. intros r v [= <- <-]. unfold debounce. split; [done|lia].
Qed.

Lemma remaining_Some i r v :
  remaining i = Some (r, v) → r = i.1 - 1 ∧ v = i.2 ∧ 1 < i.1.
Proof.
  unfold remaining. case_decide; [done|]. intros [= <- <-].
  split_and!; [done|done|lia].
Qed.

Lemma consistent_step e σ : consistent σ → consistent (step e σ).
Proof.
  intros Hσ. destruct e as [b|b|b|]; simpl.
  - case_bool_decide as Hb; [done|].
    unfold consistent in Hσ. unfold onEnableAutoSaveChange. simpl.
    destruct (stopAutoSaveWatcher σ) as [h|] eqn:Hh.
    + destruct Hσ as (Hen & w & Hw & _).
      assert (b = false) as -> by (destruct b; congruence). simpl.
      unfold consistent. simpl. split; [done|]. rewrite Hw.
      rewrite filter_cons_False by (intros Hne; by apply Hne). done.
    + destruct Hσ as [Hen Hw].
      assert (b = true) as -> by (destruct b; congruence). simpl. rewrite Hh. simpl.
      unfold consistent. simpl. split; [done|]. rewrite Hw. simpl.
      eexists. split; [done|]. simpl. split; [done|].
      intros r v [= <- <-]. unfold debounce. split; [done|lia].
  - apply consistent_refresh. simpl. unfold consistent in Hσ.
    destruct (stopAutoSaveWatcher σ) as [h|]; [|done].
    destruct Hσ as (Hen & w & Hw & Hobs & Htimer). split; [done|].
    exists w. split; [done|]. intros r v Hrv. rewrite Hobs. by apply Htimer.
  - apply consistent_refresh. simpl. unfold consistent in Hσ.
    destruct (stopAutoSaveWatcher σ) as [h|]; [|done].
    destruct Hσ as (Hen & w & Hw & Hobs & Htimer). split; [done|].
    exists w. split; [done|]. intros r v Hrv. rewrite Hobs. by apply Htimer.
  - unfold consistent in *. simpl.
    destruct (stopAutoSaveWatcher σ) as [h|]; [|by destruct Hσ as [-> ->]].
    destruct Hσ as (Hen & w & Hw & Hobs & Htimer). split; [done|].
    rewrite Hw. simpl. eexists. split; [done|]. simpl. split; [done|].
    intros r' v' Hleft.
    destruct (timer w) as [[r v]|] eqn:Hrv; [|done]. simpl in Hleft.
    apply remaining_Some in Hleft as (-> & -> & Hlt). simpl in *.
    destruct (Htimer r v eq_refl) as [-> Hr]. split; [done|lia].
Qed.

Lemma consistent_run events σ : consistent σ → consistent (run events σ).
Proof.
  revert σ. induction events as [|e events IH]; intros σ Hσ; simpl; [done|].
  by apply IH, consistent_step.
Qed.

(** What a step does to the invocations left by stopped watchers: a tick
    lets them wait on or run, disabling adds the invocation that waits in the
    watcher being stopped, nothing else touches them. *)
Lemma leftover_step e σ :
  consistent σ →
  leftover (step e σ) =
    match e with
    | Tick => omap remaining (leftover σ)
    | SetEnableAutoSave false => leftover σ ++ waiting σ
    | _ => leftover σ
    end.
Proof.
  intros Hσ. unfold consistent in Hσ. destruct e as [[]|b|b|]; simpl; try done.
  - case_bool_decide; [done|]. unfold onEnableAutoSaveChange. simpl.
    destruct (stopAutoSaveWatcher σ) as [h|] eqn:Hh; simpl; by rewrite ?Hh.
  - unfold waiting. case_bool_decide as Hen.
    + destruct (stopAutoSaveWatcher σ) as [h|]; [destruct Hσ; congruence|].
      destruct Hσ as [_ ->]. simpl. by rewrite app_nil_r.
    + unfold onEnableAutoSaveChange. simpl.
      destruct (stopAutoSaveWatcher σ) as [h|] eqn:Hh; simpl.
      * destruct Hσ as (_ & w & -> & _).
        by rewrite filter_cons_True, filter_nil by done.
      * rewrite Hh. destruct Hσ as [_ ->]. simpl. by rewrite app_nil_r.
Qed.

Lemma punctual_step e σ : consistent σ → punctual σ → punctual (step e σ).
Proof.
  intros Hσ Hp. unfold punctual. rewrite leftover_step by done.
  destruct e as [[]|b|b|]; try done.
  - apply Forall_app. split; [done|]. unfold waiting, consistent in *.
    destruct (stopAutoSaveWatcher σ) as [h|].
    + destruct Hσ as (_ & w & -> & _ & Htimer). simpl.
      destruct (timer w) as [[r v]|]; [|constructor].
      destruct (Htimer r v eq_refl) as [_ Hr].
      apply Forall_cons. split; [done|apply Forall_nil_2].
    + destruct Hσ as [_ ->]. constructor.
  - apply Forall_forall. intros [r v] ([r0 v0] & Hin & Hleft)%list_elem_of_omap.
    apply remaining_Some in Hleft as (-> & -> & Hlt). simpl in *.
    pose proof (proj1 (Forall_forall _ _) Hp _ Hin) as Hr0. simpl in Hr0. lia.
Qed.

Lemma invariant_run events :
  consistent (run events initial) ∧ punctual (run events initial).
Proof.
  assert (∀ σ, consistent σ → punctual σ →
               consistent (run events σ) ∧ punctual (run events σ)) as Hrun.
  { induction events as [|e events IH]; intros σ Hσ Hp; [done|].
    apply IH; [by apply consistent_step|by apply punctual_step]. }
  apply Hrun; [apply consistent_initial|apply punctual_initial].
Qed.

(** *** Waiting invocations over time *)

Lemma firing_cons r v l :
  firing ((r, v) :: l) = (if bool_decide (r ≤ 1) && v then 1 else 0) + firing l.
Proof.
  unfold firing, fires. simpl. case_decide.
  - rewrite bool_decide_eq_true_2 by done. by destruct v.
  - by rewrite bool_decide_eq_false_2 by done.
Qed.

Lemma savesWithin_cons n r v l :
  savesWithin n ((r, v) :: l) =
    (if bool_decide (r ≤ n) && v then 1 else 0) + savesWithin n l.
Proof. done. Qed.

Lemma scheduled_cons r (v : bool) l :
  scheduled ((r, v) :: l) = (if v then 1 else 0) + scheduled l.
Proof. done. Qed.

Lemma remaining_cons r v l :
  omap remaining ((r, v) :: l) =
    if bool_decide (r ≤ 1) then omap remaining l else (r - 1, v) :: omap remaining l.
Proof.
  change (omap remaining ((r, v) :: l)) with
    (match remaining (r, v) with
     | Some y => y :: omap remaining l
     | None => omap remaining l
     end).
  unfold remaining at 1. simpl. case_decide.
  - by rewrite bool_decide_eq_true_2.
  - by rewrite bool_decide_eq_false_2.
Qed.

Lemma due_waiting (l : list (nat * Watcher)) :
  sum_list_with (λ p, runCallback (due p.2)) l = firing (omap (λ p, timer p.2) l).
Proof.
  unfold firing. induction l as [|[h w] l IH]; [done|]. simpl. unfold due at 1.
  destruct (timer w) as [i|]; simpl; by rewrite IH.
Qed.

Lemma waiting_tick σ : waiting (tick σ) = omap remaining (waiting σ).
Proof.
  unfold waiting. simpl. induction (watchers σ) as [|[h w] l IH]; [done|].
  simpl. destruct (timer w) as [i|]; simpl; [|exact IH].
  destruct (remaining i); [f_equal|]; exact IH.
Qed.

Lemma remaining_positive (l : list (nat * bool)) :
  Forall (λ i, 1 ≤ i.1) (omap remaining l).
Proof.
  apply Forall_forall. intros [r v] ([r0 v0] & _ & Hleft)%list_elem_of_omap.
  apply remaining_Some in Hleft as (-> & _ & Hlt). simpl in *. lia.
Qed.

Lemma savesWithin_0 (l : list (nat * bool)) :
  Forall (λ i, 1 ≤ i.1) l → savesWithin 0 l = 0.
Proof.
  induction 1 as [|[r v] l Hr _ IH]; [done|]. simpl in Hr.
  rewrite savesWithin_cons, IH. by rewrite bool_decide_eq_false_2 by lia.
Qed.

Lemma savesWithin_S n (l : list (nat * bool)) :
  Forall (λ i, 1 ≤ i.1) l →
  savesWithin (S n) l = firing l + savesWithin n (omap remaining l).
Proof.
  induction 1 as [|[r v] l Hr _ IH]; [done|]. simpl in Hr.
  rewrite savesWithin_cons, firing_cons, remaining_cons, IH.
  destruct (decide (r ≤ 1)) as [Hle|Hgt].
  - rewrite !(bool_decide_eq_true_2 (r ≤ 1)) by done.
    rewrite bool_decide_eq_true_2 by lia. simpl. lia.
  - rewrite !(bool_decide_eq_false_2 (r ≤ 1)) by done.
    rewrite savesWithin_cons. destruct (decide (r ≤ S n)).
    + rewrite !bool_decide_eq_true_2 by lia. simpl. lia.
    + rewrite !bool_decide_eq_false_2 by lia. simpl. lia.
Qed.

Lemma savesWithin_app n (l k : list (nat * bool)) :
  savesWithin n (l ++ k) = savesWithin n l + savesWithin n k.
Proof. apply sum_list_with_app. Qed.

(** An invocation that runs and saves is no longer owed. *)
Lemma scheduled_remaining (l : list (nat * bool)) :
  scheduled (omap remaining l) + firing l = scheduled l.
Proof.
  induction l as [|[r v] l IH]; [done|].
  rewrite remaining_cons, firing_cons, scheduled_cons.
  case_bool_decide; [|rewrite scheduled_cons]; destruct v; simpl; lia.
Qed.

Lemma run_ticks_S n σ :
  run (replicate (S n) Tick) σ = run (replicate n Tick) (tick σ).
Proof. done. Qed.

(** What [n] milliseconds without any other event save: every invocation
    that waits, in a registered watcher or left by a stopped one, runs when
    its time is up, and saves when it was scheduled with [true]. *)
Lemma saves_ticks n σ :
  Forall (λ i, 1 ≤ i.1) (waiting σ) → Forall (λ i, 1 ≤ i.1) (leftover σ) →
  saves (run (replicate n Tick) σ) =
    saves σ + savesWithin n (waiting σ) + savesWithin n (leftover σ).
Proof.
  revert σ. induction n as [|n IH]; intros σ Hw Hl.
  - rewrite !savesWithin_0 by done. simpl. lia.
  - rewrite run_ticks_S, IH.
    + rewrite waiting_tick, !savesWithin_S by done.
      change (leftover (tick σ)) with (omap remaining (leftover σ)).
      change (saves (tick σ)) with
        (saves σ + sum_list_with (λ p, runCallback (due p.2)) (watchers σ) +
         lateSaves σ).
      rewrite due_waiting. unfold lateSaves, waiting. lia.
    + rewrite waiting_tick. apply remaining_positive.
    + apply remaining_positive.
Qed.

Lemma waiting_positive σ : consistent σ → Forall (λ i, 1 ≤ i.1) (waiting σ).
Proof.
  unfold consistent, waiting. destruct (stopAutoSaveWatcher σ) as [h|].
  - intros (_ & w & -> & _ & Htimer). simpl.
    destruct (timer w) as [[r v]|]; [|constructor].
    destruct (Htimer r v eq_refl) as [_ Hr].
    apply Forall_cons. split; [simpl; lia|apply Forall_nil_2].
  - intros [_ ->]. constructor.
Qed.

Lemma leftover_positive σ : punctual σ → Forall (λ i, 1 ≤ i.1) (leftover σ).
Proof. intros Hp. eapply Forall_impl; [exact Hp|]. intros i. simpl. lia. Qed.

(** What one step saves. *)
Lemma saves_step e σ :
  consistent σ →
  saves (step e σ) =
    saves σ +
    if bool_decide (e = Tick)
    then (if expires σ && shouldSave σ then 1 else 0) + lateSaves σ
    else 0.
Proof.
  intros Hσ. unfold consistent in Hσ. destruct e as [b|b|b|]; simpl.
  - case_bool_decide; [lia|]. unfold onEnableAutoSaveChange. simpl.
    destruct (stopAutoSaveWatcher σ) as [h|] eqn:Hh; simpl.
    + destruct Hσ as [Hen _]. destruct b; simpl; [congruence|lia].
    + rewrite Hh. destruct b; simpl; lia.
  - lia.
  - lia.
  - unfold expires. destruct (stopAutoSaveWatcher σ) as [h|].
    + destruct Hσ as (_ & w & -> & _ & Htimer). unfold due. simpl.
      destruct (timer w) as [[r v]|] eqn:Hrv; simpl.
      * destruct (Htimer r v eq_refl) as [<- _]. unfold fires. simpl.
        case_decide.
        -- rewrite bool_decide_eq_true_2.
           ++ destruct v; simpl; lia.
           ++ constructor. simpl. rewrite Hrv. simpl. unfold fires. simpl.
              rewrite decide_True by done. by eexists.
        -- rewrite bool_decide_eq_false_2.
           ++ simpl. lia.
           ++ intros [Hd|[]%Exists_nil]%Exists_cons. simpl in Hd.
              rewrite Hrv in Hd. simpl in Hd. unfold fires in Hd. simpl in Hd.
              rewrite decide_False in Hd by done. by destruct Hd.
      * rewrite bool_decide_eq_false_2.
        -- simpl. lia.
        -- intros [Hd|[]%Exists_nil]%Exists_cons. simpl in Hd.
           rewrite Hrv in Hd. by destruct Hd.
    + destruct Hσ as [_ ->]. simpl. lia.
Qed.

Lemma mode_step_enable (b : bool) σ :
  consistent σ →
  mode (step (SetEnableAutoSave b) σ) = if b then Watching else Idle.
Proof.
  intros Hσ. unfold mode, consistent in *. simpl.
  destruct (stopAutoSaveWatcher σ) as [h|] eqn:Hh.
  - destruct Hσ as [Hen _]. rewrite Hen.
    destruct b; simpl; [by rewrite Hh|].
    unfold onEnableAutoSaveChange. simpl. by rewrite Hh.
  - destruct Hσ as [Hen _]. rewrite Hen.
    destruct b; simpl; [|by rewrite Hh].
    unfold onEnableAutoSaveChange. simpl. rewrite Hh. simpl. by rewrite Hh.
Qed.

Lemma saves_step_le e σ : consistent σ → saves σ ≤ saves (step e σ).
Proof. intros Hσ. rewrite saves_step by done. lia. Qed.

Lemma saves_run_le events σ : consistent σ → saves σ ≤ saves (run events σ).
Proof.
  revert σ. induction events as [|e events IH]; intros σ Hσ; [done|].
  etrans; [by apply (saves_step_le e)|]. by apply IH, consistent_step.
Qed.

Lemma idle_quiet σ :
  consistent σ → mode σ = Idle → expires σ = false ∧ waiting σ = [].
Proof.
  unfold mode, consistent, expires, waiting.
  destruct (stopAutoSaveWatcher σ); [done|]. by intros [_ ->] _.
Qed.

(** While Idle the only saves are those owed by stopped watchers. *)
Lemma idle_step e σ :
  consistent σ → mode σ = Idle → e ≠ SetEnableAutoSave true →
  saves (step e σ) + owed (step e σ) = saves σ + owed σ ∧
  mode (step e σ) = Idle.
Proof.
  intros Hσ Hidle He. destruct (idle_quiet σ Hσ Hidle) as [Hexp Hwait].
  split.
  - rewrite saves_step by done. unfold owed. rewrite leftover_step by done.
    destruct e as [[]|b|b|]; try done.
    + rewrite Hwait, app_nil_r. simpl. lia.
    + simpl. lia.
    + simpl. lia.
    + rewrite bool_decide_eq_true_2 by done. rewrite Hexp. simpl.
      unfold lateSaves. pose proof (scheduled_remaining (leftover σ)). lia.
  - unfold mode, consistent in *.
    destruct (stopAutoSaveWatcher σ) as [h|] eqn:Hh; [done|].
    destruct Hσ as [Hen Hw]. destruct e as [[]|b|b|]; simpl.
    + done.
    + rewrite bool_decide_eq_true_2 by done. by rewrite Hh.
    + by rewrite Hh.
    + by rewrite Hh.
    + by rewrite Hh.
Qed.

Lemma idle_run later σ :
  consistent σ → mode σ = Idle →
  Forall (λ e, e ≠ SetEnableAutoSave true) later →
  saves (run later σ) + owed (run later σ) = saves σ + owed σ ∧
  mode (run later σ) = Idle.
Proof.
  revert σ. induction later as [|e later IH]; intros σ Hσ Hidle Hlater; [done|].
  apply Forall_cons in Hlater as [He Hlater].
  destruct (idle_step e σ Hσ Hidle He) as [Hs Hm].
  destruct (IH (step e σ)) as [Hs' Hm']; [by apply consistent_step|done|done|].
  change (run (e :: later) σ) with (run later (step e σ)). split; [lia|done].
Qed.

(** Enabling while Idle sets up one fresh watcher whose invocation is a
    full debounce away, and leaves what stopped watchers left. *)
Lemma enable_fresh σ :
  consistent σ → mode σ = Idle →
  let σ' := step (SetEnableAutoSave true) σ in
  saves σ' = saves σ ∧ leftover σ' = leftover σ ∧
  waiting σ' = [(debounce, shouldSave σ)].
Proof.
  intros Hσ Hidle. unfold mode, consistent, waiting in *. simpl.
  destruct (stopAutoSaveWatcher σ) as [h|] eqn:Hh; [done|].
  destruct Hσ as [Hen Hw]. rewrite Hen. simpl.
  unfold onEnableAutoSaveChange. simpl. rewrite Hh. simpl. rewrite Hh. simpl.
  by rewrite Hw.
Qed.

Lemma savesWithin_singleton n r (v : bool) :
  savesWithin n [(r, v)] = if bool_decide (r ≤ n) && v then 1 else 0.
Proof. rewrite savesWithin_cons. unfold savesWithin. simpl. lia. Qed.

Lemma shouldSave_step_enable b σ :
  shouldSave (step (SetEnableAutoSave b) σ) = shouldSave σ.
Proof.
  unfold shouldSave. simpl. case_bool_decide; [done|].
  unfold onEnableAutoSaveChange. simpl.
  destruct (stopAutoSaveWatcher σ) as [h|] eqn:Hh; destruct b; simpl;
    by rewrite ?Hh.
Qed.

(** While watching, a change of the watched value restarts the debounce. *)
Lemma change_restarts e σ :
  consistent σ → mode σ = Watching →
  (∃ b, e = SetDirty b ∨ e = SetPause b) →
  shouldSave (step e σ) ≠ shouldSave σ →
  saves (step e σ) = saves σ ∧ leftover (step e σ) = leftover σ ∧
  waiting (step e σ) = [(debounce, shouldSave (step e σ))].
Proof.
  intros Hσ Hmode (b & He) Hchange. unfold mode, consistent, waiting in *.
  destruct (stopAutoSaveWatcher σ) as [h|]; [|done].
  destruct Hσ as (_ & w & Hw & Hobs & _).
  destruct He as [-> | ->]; unfold shouldSave in *; simpl in *;
    (split; [done|]); (split; [done|]); rewrite Hw; simpl;
    unfold observe; simpl; rewrite bool_decide_eq_false_2;
    first [done | rewrite Hobs; unfold shouldSave; simpl; congruence].
Qed.

(** The invocations left by stopped watchers are gone once a debounce has
    passed without another watcher being stopped. *)
Lemma leftover_drained later σ k :
  consistent σ → Forall (λ i, 1 ≤ i.1 ≤ k) (leftover σ) →
  Forall (λ e, e ≠ SetEnableAutoSave false) later →
  k ≤ length (filter (λ e, e = Tick) later) →
  leftover (run later σ) = [].
Proof.
  revert σ k. induction later as [|e later IH]; intros σ k Hσ Hk Hlater Hlen.
  - simpl in *. destruct (leftover σ) as [|i l]; [done|].
    apply Forall_cons in Hk as [Hi _]. lia.
  - apply Forall_cons in Hlater as [He Hlater].
    change (run (e :: later) σ) with (run later (step e σ)).
    rewrite filter_cons in Hlen.
    destruct (decide (e = Tick)) as [->|Hne].
    + apply (IH _ (k - 1)); [by apply consistent_step| |done|simpl in Hlen; lia].
      rewrite leftover_step by done. apply Forall_forall.
      intros [r v] ([r0 v0] & Hin & Hleft)%list_elem_of_omap.
      apply remaining_Some in Hleft as (-> & -> & Hlt). simpl in *.
      pose proof (proj1 (Forall_forall _ _) Hk _ Hin) as Hr0. simpl in Hr0. lia.
    + apply (IH _ k); [by apply consistent_step| |done|done].
      rewrite leftover_step by done. by destruct e as [[]|b|b|].
Qed.

(** C5 (amended): the controller has two states, Watching exactly while
    auto-save is enabled: enabling moves it to Watching, disabling to Idle.
    While Watching, the debounce lasts 2000 ms from the moment the watcher is
    set up or the watched value changes, and when it runs out the workbook is
    saved exactly when it is dirty and the pause flag is off.  Disabling
    stops the watcher but cancels nothing: the invocation that was waiting in
    it stays scheduled, runs within 2000 ms and saves when it was scheduled
    with a dirty, unpaused workbook, whatever the flags are by then.
    Apart from these invocations nothing is saved while Idle, and none of them
    is left once 2000 ms have passed without another disabling.  Enabling
    again sets up a watcher that saves after 2000 ms. *)
Theorem autosave_controller (events : list Event) :
  let σ := run events initial in
  (mode σ = Watching ↔ enable_auto_save σ = true) ∧
  mode (step (SetEnableAutoSave true) σ) = Watching ∧
  mode (step (SetEnableAutoSave false) σ) = Idle ∧
  (∀ e, saves (step e σ) =
        saves σ +
        if bool_decide (e = Tick)
        then (if expires σ && (isdirty σ && negb (_pauseAutoSave σ))
              then 1 else 0) + lateSaves σ
        else 0) ∧
  (mode σ = Idle → expires σ = false) ∧
  (∀ e, leftover (step e σ) =
        match e with
        | Tick => omap remaining (leftover σ)
        | SetEnableAutoSave false => leftover σ ++ waiting σ
        | _ => leftover σ
        end) ∧
  Forall (λ i, 1 ≤ i.1 ≤ debounce) (leftover σ) ∧
  (∀ later, Forall (λ e, e ≠ SetEnableAutoSave false) later →
            debounce ≤ length (filter (λ e, e = Tick) later) →
            leftover (run later σ) = []) ∧
  (∀ later, mode σ = Idle →
            Forall (λ e, e ≠ SetEnableAutoSave true) later →
            saves (run later σ) + owed (run later σ) = saves σ + owed σ ∧
            (leftover σ = [] → saves (run later σ) = saves σ)) ∧
  (∀ n, saves (run (replicate n Tick) σ) =
        saves σ + savesWithin n (waiting σ) + savesWithin n (leftover σ)) ∧
  (∀ n, saves (run (SetEnableAutoSave false :: SetEnableAutoSave true ::
                    replicate n Tick) σ) =
        saves σ +
        (if bool_decide (debounce ≤ n) && (isdirty σ && negb (_pauseAutoSave σ))
         then 1 else 0) +
        savesWithin n (leftover σ ++ waiting σ)) ∧
  (∀ e n, mode σ = Watching →
          (∃ b, e = SetDirty b ∨ e = SetPause b) →
          shouldSave (step e σ) ≠ shouldSave σ →
          saves (run (e :: replicate n Tick) σ) =
            saves σ +
            (if bool_decide (debounce ≤ n) && shouldSave (step e σ)
             then 1 else 0) +
            savesWithin n (leftover σ)).
Proof.
  intros σ. destruct (invariant_run events) as [Hσ Hp]. fold σ in Hσ, Hp.
  clearbody σ. split_and!.
  - unfold mode, consistent in *.
    destruct (stopAutoSaveWatcher σ); destruct Hσ as [-> _]; by split.
  - by apply (mode_step_enable true).
  - by apply (mode_step_enable false).
  - intros e. by apply saves_step.
  - intros Hidle. by apply idle_quiet.
  - intros e. by apply leftover_step.
  - done.
  - intros later Hlater Hlen. by apply (leftover_drained later σ debounce).
  - intros later Hidle Hlater.
    destruct (idle_run later σ Hσ Hidle Hlater) as [Hsum _].
    split; [done|]. intros Hnone.
    pose proof (saves_run_le later σ Hσ) as Hle.
    unfold owed in Hsum at 2. rewrite Hnone in Hsum.
    change (scheduled []) with 0 in Hsum. lia.
  - intros n.
    apply saves_ticks; [by apply waiting_positive|by apply leftover_positive].
  - intros n.
    set (σ0 := step (SetEnableAutoSave false) σ).
    assert (consistent σ0) as Hσ0 by by apply consistent_step.
    assert (punctual σ0) as Hp0 by by apply punctual_step.
    assert (mode σ0 = Idle) as Hidle by by apply (mode_step_enable false).
    destruct (enable_fresh σ0 Hσ0 Hidle) as (Hs & Hl & Hw).
    change (run (SetEnableAutoSave false :: SetEnableAutoSave true ::
                 replicate n Tick) σ)
      with (run (replicate n Tick) (step (SetEnableAutoSave true) σ0)).
    rewrite saves_ticks.
    + rewrite Hs, Hl, Hw, savesWithin_singleton.
      unfold σ0 at 2. rewrite shouldSave_step_enable.
      unfold σ0. rewrite saves_step, leftover_step by done. simpl.
      unfold shouldSave. lia.
    + rewrite Hw. apply Forall_cons. split; [simpl; unfold debounce; lia|].
      apply Forall_nil_2.
    + rewrite Hl. by apply leftover_positive.
  - intros e n Hmode He Hchange.
    destruct (change_restarts e σ Hσ Hmode He Hchange) as (Hs & Hl & Hw).
    change (run (e :: replicate n Tick) σ)
      with (run (replicate n Tick) (step e σ)).
    rewrite saves_ticks.
    + by rewrite Hs, Hl, Hw, savesWithin_singleton.
    + rewrite Hw. apply Forall_cons. split; [simpl; unfold debounce; lia|].
      apply Forall_nil_2.
    + rewrite Hl. by apply leftover_positive.
Qed.

(** C5, as stated, fails when auto-save is disabled while an invocation is
    waiting: the controller is Idle and auto-save is off, and the next
    millisecond saves all the same. *)
Lemma autosave_saves_while_idle :
  let σ := run (SetDirty true :: SetEnableAutoSave true :: replicate 1999 Tick ++
                [SetEnableAutoSave false]) initial in
  mode σ = Idle ∧ enable_auto_save σ = false ∧ saves σ = 0 ∧
  saves (step Tick σ) = 1 ∧
  ¬ (∀ later, Forall (λ e, e ≠ SetEnableAutoSave true) later →
              saves (run later σ) = saves σ).
Proof.
  split_and!; try (vm_compute; reflexivity).
  intros Hnever. specialize (Hnever [Tick]).
  rewrite Forall_singleton in Hnever. specialize (Hnever ltac:(done)).
  vm_compute in Hnever. discriminate Hnever.
Qed.

(** *** Further properties of the controller *)

Lemma scheduled_app (l k : list (nat * bool)) :
  scheduled (l ++ k) = scheduled l + scheduled k.
Proof. apply sum_list_with_app. Qed.

Lemma scheduled_waiting σ : consistent σ → scheduled (waiting σ) ≤ 1.
Proof.
  unfold consistent, waiting. destruct (stopAutoSaveWatcher σ) as [h|].
  - intros (_ & w & -> & _). simpl.
    destruct (timer w) as [[r []]|]; unfold scheduled; simpl; lia.
  - intros [_ ->]. unfold scheduled. simpl. lia.
Qed.

(** One step, in terms of the saves made and still owed and of the time the
    registered watcher's invocation has waited: either the watcher saves, and
    then a whole debounce of waiting is used up, or the count grows only by
    what a disabling leaves behind. *)
Lemma waited_step e σ :
  consistent σ →
  (saves (step e σ) + owed (step e σ) ≤
     saves σ + owed σ +
     (if decide (e = SetEnableAutoSave false) then 1 else 0) ∧
   waited (step e σ) ≤ waited σ + (if decide (e = Tick) then 1 else 0)) ∨
  (saves (step e σ) + owed (step e σ) = S (saves σ + owed σ) ∧ e = Tick ∧
   debounce + waited (step e σ) ≤ waited σ + 1).
Proof.
  intros Hσ. pose proof (consistent_step e σ Hσ) as Hσ'.
  rewrite saves_step by done. unfold owed. rewrite leftover_step by done.
  destruct e as [b|b|b|].
  - left. rewrite bool_decide_eq_false_2 by done. split.
    + destruct b.
      * rewrite decide_False by done. lia.
      * rewrite decide_True by done. rewrite scheduled_app.
        pose proof (scheduled_waiting σ Hσ). lia.
    + rewrite decide_False by done.
      unfold consistent in Hσ'. simpl in Hσ'. unfold waited. simpl.
      case_bool_decide as Hb; [lia|].
      destruct (stopAutoSaveWatcher (onEnableAutoSaveChange _)) as [h|] eqn:Hh.
      * unfold consistent in Hσ. unfold onEnableAutoSaveChange in *. simpl in *.
        destruct (stopAutoSaveWatcher σ) as [h0|] eqn:Hh0; simpl in *.
        -- destruct Hσ as [Hen _]. destruct b; [congruence|]. simpl in *. done.
        -- rewrite Hh0 in *. destruct b; simpl in *; [|congruence].
           destruct Hσ as [_ Hnil]. rewrite Hnil. simpl. lia.
      * destruct Hσ' as [_ ->]. simpl. lia.
  - left. rewrite bool_decide_eq_false_2 by done.
    rewrite !decide_False by done. split; [lia|].
    unfold consistent in Hσ. unfold waited. simpl.
    destruct (stopAutoSaveWatcher σ) as [h|].
    + destruct Hσ as (_ & w & -> & _ & _). simpl. unfold observe.
      case_bool_decide; simpl; lia.
    + destruct Hσ as [_ ->]. simpl. lia.
  - left. rewrite bool_decide_eq_false_2 by done.
    rewrite !decide_False by done. split; [lia|].
    unfold consistent in Hσ. unfold waited. simpl.
    destruct (stopAutoSaveWatcher σ) as [h|].
    + destruct Hσ as (_ & w & -> & _ & _). simpl. unfold observe.
      case_bool_decide; simpl; lia.
    + destruct Hσ as [_ ->]. simpl. lia.
  - rewrite bool_decide_eq_true_2 by done. rewrite decide_False by done.
    rewrite decide_True by done.
    pose proof (scheduled_remaining (leftover σ)) as Hsched.
    unfold lateSaves.
    set (left := scheduled (omap remaining (leftover σ))) in *.
    set (late := firing (leftover σ)) in *. clearbody left late.
    unfold expires, waited. simpl.
    unfold consistent in Hσ. destruct (stopAutoSaveWatcher σ) as [h|].
    + destruct Hσ as (_ & w & -> & _ & Htimer). simpl. unfold due.
      destruct (timer w) as [[r v]|] eqn:Hrv; simpl.
      * destruct (Htimer r v eq_refl) as [<- Hr]. unfold fires, remaining. simpl.
        destruct (decide (r ≤ 1)) as [Hle|Hgt]; simpl.
        -- rewrite bool_decide_eq_true_2.
           ++ destruct v; simpl; [right|left]; split_and?; try done;
                unfold debounce in *; lia.
           ++ constructor. simpl. rewrite Hrv. simpl. unfold fires. simpl.
              rewrite decide_True by done. by eexists.
        -- left. rewrite bool_decide_eq_false_2.
           ++ simpl. lia.
           ++ intros [Hd|[]%Exists_nil]%Exists_cons. simpl in Hd.
              rewrite Hrv in Hd. simpl in Hd. unfold fires in Hd. simpl in Hd.
              rewrite decide_False in Hd by done. by destruct Hd.
      * left. rewrite bool_decide_eq_false_2.
        -- simpl. lia.
        -- intros [Hd|[]%Exists_nil]%Exists_cons. simpl in Hd.
           rewrite Hrv in Hd. by destruct Hd.
    + destruct Hσ as [_ ->]. simpl. left. lia.
Qed.

Lemma waited_run events σ :
  consistent σ →
  debounce * (saves (run events σ) + owed (run events σ)) + waited (run events σ) ≤
  debounce * (saves σ + owed σ) + waited σ +
  length (filter (λ e, e = Tick) events) +
  debounce * length (filter (λ e, e = SetEnableAutoSave false) events).
Proof.
  revert σ. induction events as [|e events IH]; intros σ Hσ; [simpl; lia|].
  pose proof (IH _ (consistent_step e σ Hσ)) as Hrun.
  rewrite !filter_cons.
  change (run (e :: events) σ) with (run events (step e σ)).
  destruct (waited_step e σ Hσ) as [[Hs Hw]|(Hs & -> & Hw)].
  - repeat case_decide; simpl length; unfold debounce in *; lia.
  - rewrite decide_True by done. rewrite decide_False by done.
    simpl length. unfold debounce in *. lia.
Qed.

(** X8: saves are rate limited by the debounce, up to what disabling leaves
    behind: in every run the number of calls of [workbook.save()] is at most
    one per 2000 elapsed milliseconds plus one for each time auto-save was
    switched off; as long as auto-save is never switched off it is at most
    one per 2000 elapsed milliseconds. *)
Theorem autosave_rate_limited (events : list Event) :
  debounce * saves (run events initial) ≤
    length (filter (λ e, e = Tick) events) +
    debounce * length (filter (λ e, e = SetEnableAutoSave false) events) ∧
  (Forall (λ e, e ≠ SetEnableAutoSave false) events →
   debounce * saves (run events initial) ≤ length (filter (λ e, e = Tick) events)).
Proof.
  pose proof (waited_run events initial consistent_initial) as H.
  change (saves initial + owed initial) with 0 in H.
  change (waited initial) with 0 in H.
  assert (debounce * saves (run events initial) ≤
          length (filter (λ e, e = Tick) events) +
          debounce * length (filter (λ e, e = SetEnableAutoSave false) events))
    as Hall by (unfold debounce in *; lia).
  split; [done|]. intros Hnever.
  assert (filter (λ e, e = SetEnableAutoSave false) events = []) as Hnone.
  { clear -Hnever. induction Hnever as [|e events He _ IH]; [done|].
    by rewrite filter_cons_False. }
  rewrite Hnone in Hall. simpl length in Hall. lia.
Qed.

Lemma autosave_rate_limited_witness :
  let events := SetDirty true :: SetEnableAutoSave true :: replicate 1000 Tick ++
                SetEnableAutoSave false :: SetEnableAutoSave true ::
                replicate 2000 Tick in
  saves (run events initial) = 2 ∧
  (debounce * saves (run events initial) ≤
     length (filter (λ e, e = Tick) events) +
     debounce * length (filter (λ e, e = SetEnableAutoSave false) events) ∧
   (Forall (λ e, e ≠ SetEnableAutoSave false) events →
    debounce * saves (run events initial) ≤
      length (filter (λ e, e = Tick) events))).
Proof.
  split; [vm_compute; reflexivity|].
  apply (autosave_rate_limited
           (SetDirty true :: SetEnableAutoSave true :: replicate 1000 Tick ++
            SetEnableAutoSave false :: SetEnableAutoSave true ::
            replicate 2000 Tick)).
Defined.

(** X9: whatever is switched on and off, at most one watcher is alive: none
    while Idle, and while Watching exactly the one whose stop handle the
    controller holds. *)
Theorem autosave_single_watcher (events : list Event) :
  let σ := run events initial in
  match stopAutoSaveWatcher σ with
  | Some h => ∃ w, watchers σ = [(h, w)]
  | None => watchers σ = []
  end.
Proof.
  intros σ.
  assert (consistent σ) as Hσ by apply consistent_run, consistent_initial.
  unfold consistent in Hσ. destruct (stopAutoSaveWatcher σ).
  - destruct Hσ as (_ & w & Hw & _). by exists w.
  - by destruct Hσ.
Qed.

(** X10: the callback of [wheneverChanges] is idempotent in every state:
    running it a second time without a change of [enable_auto_save] stops
    nothing and starts nothing. *)
Theorem onEnableAutoSaveChange_idempotent (σ : State) :
  onEnableAutoSaveChange (onEnableAutoSaveChange σ) = onEnableAutoSaveChange σ.
Proof.
  unfold onEnableAutoSaveChange.
  destruct (stopAutoSaveWatcher σ) as [h|] eqn:Hh;
    destruct (enable_auto_save σ) eqn:Hen; simpl;
    rewrite ?Hh, ?Hen; simpl; rewrite ?Hh, ?Hen; done.
Qed.

Lemma onEnableAutoSaveChange_pause σ :
  _pauseAutoSave (onEnableAutoSaveChange σ) = _pauseAutoSave σ.
Proof.
  unfold onEnableAutoSaveChange.
  destruct (stopAutoSaveWatcher σ) as [h|] eqn:Hh;
    destruct (enable_auto_save σ) eqn:Hen; simpl; rewrite ?Hh, ?Hen; done.
Qed.

Lemma paused_step e σ :
  consistent σ → _pauseAutoSave σ = true → e ≠ SetPause false →
  saves (step e σ) + owed (step e σ) = saves σ + owed σ ∧
  _pauseAutoSave (step e σ) = true.
Proof.
  intros Hσ Hpause He. split.
  - rewrite saves_step by done. unfold owed. rewrite leftover_step by done.
    unfold shouldSave. rewrite Hpause, !andb_false_r.
    destruct e as [[]|b|b|]; try (simpl; lia).
    + rewrite scheduled_app. simpl.
      assert (scheduled (waiting σ) = 0) as ->; [|lia].
      unfold consistent, waiting, shouldSave in *. rewrite Hpause in Hσ.
      destruct (stopAutoSaveWatcher σ) as [h|].
      * destruct Hσ as (_ & w & -> & _ & Htimer). simpl.
        destruct (timer w) as [[r v]|]; [|done].
        destruct (Htimer r v eq_refl) as [-> _]. by rewrite andb_false_r.
      * by destruct Hσ as [_ ->].
    + rewrite bool_decide_eq_true_2 by done. unfold lateSaves.
      pose proof (scheduled_remaining (leftover σ)). lia.
  - destruct e as [b|b|[]|]; simpl; try done.
    case_bool_decide; [done|]. by rewrite onEnableAutoSaveChange_pause.
Qed.

(** X11: while the pause flag is set the registered watcher saves nothing,
    whatever else happens and however long it lasts: the only saves are those
    of invocations that watchers stopped earlier left waiting with a dirty,
    unpaused workbook, each counted once; when none is left, nothing is
    saved. *)
Theorem autosave_paused_is_silent (events later : list Event) :
  let σ := run events initial in
  _pauseAutoSave σ = true →
  Forall (λ e, e ≠ SetPause false) later →
  saves (run later σ) + owed (run later σ) = saves σ + owed σ ∧
  saves σ ≤ saves (run later σ) ∧
  (owed σ = 0 → saves (run later σ) = saves σ).
Proof.
  intros σ.
  assert (consistent σ) as Hσ by apply consistent_run, consistent_initial.
  clearbody σ. intros Hpause Hlater.
  assert (saves (run later σ) + owed (run later σ) = saves σ + owed σ) as Hsum.
  { revert σ Hσ Hpause.
    induction Hlater as [|e later He _ IH]; intros σ Hσ Hpause; [done|].
    destruct (paused_step e σ Hσ Hpause He) as [Hs Hp].
    change (run (e :: later) σ) with (run later (step e σ)).
    rewrite IH; [done|by apply consistent_step|done]. }
  pose proof (saves_run_le later σ Hσ) as Hle.
  split_and!; [done|done|lia].
Qed.

Lemma autosave_paused_is_silent_witness :
  let σ := run [SetEnableAutoSave true; SetEnableAutoSave false;
                SetEnableAutoSave true; SetDirty true; SetPause true] initial in
  let later := replicate 3000 Tick ++
               [SetDirty false; SetDirty true; SetEnableAutoSave false] ++
               replicate 3000 Tick in
  saves (run later σ) + owed (run later σ) = saves σ + owed σ ∧
  saves σ ≤ saves (run later σ) ∧
  (owed σ = 0 → saves (run later σ) = saves σ).
Proof.
  apply (autosave_paused_is_silent
           [SetEnableAutoSave true; SetEnableAutoSave false;
            SetEnableAutoSave true; SetDirty true; SetPause true]).
  - reflexivity.
  - apply (bool_decide_unpack _). vm_compute. exact I.
Defined.

End AutoSaveFacts.

(** ** Linked-query resolver *)

Module LinkedFacts.
Import Linked.

Example getLinkedQueries_dag :
  getLinkedQueries (storeOf dagStore) 5 "orders" = Some ["customers"; "regions"].
Proof. vm_compute. reflexivity. Qed.

Example linkedClosure_dag :
  linkedClosure (storeOf dagStore) 5 "orders" = Some ["customers"; "regions"].
Proof. vm_compute. reflexivity. Qed.

Example getLinkedQueries_cyclic_20 :
  getLinkedQueries (storeOf cyclicStore) 20 "a" = None.
Proof. vm_compute. reflexivity. Qed.

(** *** The dedup set *)

Lemma elem_of_set_add (s : list string) x y : y ∈ set_add s x ↔ y ∈ s ∨ y = x.
Proof.
  unfold set_add. case_decide; [|rewrite elem_of_app, list_elem_of_singleton; tauto].
  split; [tauto|]. intros [?| ->]; done.
Qed.

Lemma set_add_prefix (s : list string) x : s `prefix_of` set_add s x.
Proof. unfold set_add. case_decide; [done|]. by apply prefix_app_r. Qed.

Lemma set_add_NoDup (s : list string) x : NoDup s → NoDup (set_add s x).
Proof.
  intros Hs. unfold set_add. case_decide; [done|].
  apply NoDup_app. split_and!; [done| |apply NoDup_singleton].
  intros y Hy ->%list_elem_of_singleton. done.
Qed.

Lemma elem_of_add_all (r s : list string) y : y ∈ add_all s r ↔ y ∈ s ∨ y ∈ r.
Proof.
  unfold add_all. revert s. induction r as [|x r IH]; intros s; simpl.
  - rewrite elem_of_nil. tauto.
  - rewrite IH, elem_of_set_add, elem_of_cons. tauto.
Qed.

Lemma add_all_prefix (r s : list string) : s `prefix_of` add_all s r.
Proof.
  unfold add_all. revert s. induction r as [|x r IH]; intros s; simpl; [done|].
  etrans; [apply set_add_prefix|apply IH].
Qed.

Lemma add_all_NoDup (r s : list string) : NoDup s → NoDup (add_all s r).
Proof.
  unfold add_all. revert s. induction r as [|x r IH]; intros s Hs; simpl; [done|].
  by apply IH, set_add_NoDup.
Qed.

Lemma add_all_absorb (r s : list string) : r ⊆ s → add_all s r = s.
Proof.
  unfold add_all. induction r as [|x r IH]; intros Hr; simpl; [done|].
  unfold set_add. rewrite decide_True by (apply Hr; left).
  apply IH. intros y Hy. apply Hr. by right.
Qed.

Lemma elem_of_fold_add_all (rs : list (list string)) (s : list string) y :
  y ∈ fold_left add_all rs s ↔ y ∈ s ∨ ∃ r, r ∈ rs ∧ y ∈ r.
Proof.
  revert s. induction rs as [|r rs IH]; intros s; simpl.
  - split; [tauto|]. intros [?|(r & []%elem_of_nil & _)]; done.
  - rewrite IH, elem_of_add_all. split.
    + intros [[?|?]|(r' & ? & ?)]; [tauto|right; exists r|right; exists r'];
        rewrite elem_of_cons; tauto.
    + intros [?|(r' & [->|?]%elem_of_cons & ?)]; [tauto..|]. right. by exists r'.
Qed.

Lemma fold_add_all_prefix (rs : list (list string)) (s : list string) :
  s `prefix_of` fold_left add_all rs s.
Proof.
  revert s. induction rs as [|r rs IH]; intros s; simpl; [done|].
  etrans; [apply add_all_prefix|apply IH].
Qed.

Lemma fold_add_all_NoDup (rs : list (list string)) (s : list string) :
  NoDup s → NoDup (fold_left add_all rs s).
Proof.
  revert s. induction rs as [|r rs IH]; intros s Hs; simpl; [done|].
  by apply IH, add_all_NoDup.
Qed.

(** *** What the first pass collects *)

Lemma collect_add_all (ops : list Operation) :
  collect ops = add_all [] (omap referencedQuery ops).
Proof.
  unfold collect, add_all. generalize (@nil string).
  induction ops as [|op ops IH]; intros s; simpl; [done|].
  destruct (referencedQuery op); simpl; apply IH.
Qed.

Lemma collect_NoDup (ops : list Operation) : NoDup (collect ops).
Proof. rewrite collect_add_all. apply add_all_NoDup, NoDup_nil_2. Qed.

Lemma elem_of_collect (ops : list Operation) x :
  x ∈ collect ops ↔ ∃ op, op ∈ ops ∧ referencedQuery op = Some x.
Proof.
  rewrite collect_add_all, elem_of_add_all, elem_of_nil, list_elem_of_omap.
  tauto.
Qed.

Lemma referencedQuery_Some (op : Operation) x :
  referencedQuery op = Some x ↔
  ∃ t, table op = Some t ∧ table_type t = Some "query" ∧ query_name t = x.
Proof.
  unfold referencedQuery. split.
  - destruct (table op) as [t|]; [|done].
    destruct (table_type t) as [ty|] eqn:Hty; [|done].
    case_decide; [|done]. intros [= <-]. exists t. by subst.
  - intros (t & -> & -> & <-). by rewrite decide_True.
Qed.

Lemma elem_of_effectiveOperations (query : Query) op :
  op ∈ effectiveOperations query ↔
  ∃ i : nat, currentOperations query !! i = Some op ∧
             ((-1 < activeEditIndex query)%Z → (Z.of_nat i < activeEditIndex query)%Z).
Proof.
  unfold effectiveOperations. case_decide as Hidx.
  - rewrite list_elem_of_lookup. split.
    + intros (i & Hi). apply lookup_take_Some in Hi as [Hi Hlt].
      exists i. split; [done|]. lia.
    + intros (i & Hi & Hlt). exists i. apply lookup_take_Some. split; [done|].
      specialize (Hlt Hidx). lia.
  - rewrite list_elem_of_lookup. split.
    + intros (i & Hi). exists i. split; [done|]. lia.
    + intros (i & Hi & _). by exists i.
Qed.

(** *** The walk over the growing set *)

Lemma forEach_mono rec rec' (n n' i : nat) (s r : list string) :
  (∀ x rx, rec x = Some rx → rec' x = Some rx) → n ≤ n' →
  forEach rec n i s = Some r → forEach rec' n' i s = Some r.
Proof.
  intros Hrec. revert n' i s. induction n as [|n IH]; intros n' i s Hn; simpl.
  - destruct (s !! i) eqn:Hi; [done|]. intros [= <-].
    destruct n'; simpl; by rewrite Hi.
  - destruct (s !! i) as [q|] eqn:Hi.
    + destruct (rec q) as [rq|] eqn:Hq; [|done]. intros Hrun.
      destruct n' as [|n']; [lia|]. simpl. rewrite Hi, (Hrec _ _ Hq).
      apply IH; [lia|done].
    + intros [= <-]. destruct n'; simpl; by rewrite Hi.
Qed.

Lemma forEach_det rec (n n' i : nat) (s r r' : list string) :
  forEach rec n i s = Some r → forEach rec n' i s = Some r' → r = r'.
Proof.
  intros H1 H2.
  apply (forEach_mono rec rec n (n `max` n')) in H1; [|done|lia].
  apply (forEach_mono rec rec n' (n `max` n')) in H2; [|done|lia].
  congruence.
Qed.

(** Every entry from the cursor on is visited, and what its callback
    returned has been added. *)
Lemma forEach_visited rec (n i : nat) (s r : list string) :
  forEach rec n i s = Some r →
  s `prefix_of` r ∧
  ∀ j x, i ≤ j → r !! j = Some x → ∃ rx, rec x = Some rx ∧ rx ⊆ r.
Proof.
  revert i s. induction n as [|n IH]; intros i s; simpl.
  - destruct (s !! i) eqn:Hi; [done|]. intros [= <-]. split; [done|].
    intros j x Hj Hx. apply lookup_ge_None in Hi.
    apply lookup_lt_Some in Hx. lia.
  - destruct (s !! i) as [q|] eqn:Hi.
    + destruct (rec q) as [rq|] eqn:Hq; [|done]. intros Hrun.
      destruct (IH _ _ Hrun) as [Hpre Hvis].
      assert (s `prefix_of` r) as Hsr by (etrans; [apply add_all_prefix|done]).
      split; [done|]. intros j x Hj Hx.
      destruct (decide (j = i)) as [->|Hne]; [|apply (Hvis j); [lia|done]].
      rewrite (prefix_lookup_Some _ _ _ _ Hi Hsr) in Hx. injection Hx as <-.
      exists rq. split; [done|]. intros y Hy.
      eapply elem_of_prefix; [|exact Hpre]. apply elem_of_add_all. by right.
    + intros [= <-]. split; [done|].
      intros j x Hj Hx. apply lookup_ge_None in Hi.
      apply lookup_lt_Some in Hx. lia.
Qed.

(** On a set that is closed under the callback the walk adds nothing. *)
Lemma forEach_closed rec (n i : nat) (s : list string) :
  (∀ x, x ∈ s → ∃ rx, rec x = Some rx ∧ rx ⊆ s) →
  length s ≤ n + i →
  forEach rec n i s = Some s.
Proof.
  intros Hcl. revert i. induction n as [|n IH]; intros i Hlen; simpl.
  - destruct (s !! i) eqn:Hi; [|done]. apply lookup_lt_Some in Hi. lia.
  - destruct (s !! i) as [q|] eqn:Hi; [|done].
    destruct (Hcl q) as (rq & -> & Hsub); [by eapply list_elem_of_lookup_2|].
    rewrite (add_all_absorb _ _ Hsub). apply IH. lia.
Qed.

(** The first [length s0] steps visit the entries of the initial set [s0]
    in order. *)
Lemma forEach_initial rec (n i : nat) (s0 s : list string) (rs : list (list string)) :
  i ≤ length s0 → s0 `prefix_of` s →
  Forall2 (λ d rd, rec d = Some rd) (drop i s0) rs →
  forEach rec (length rs + n) i s = forEach rec n (length s0) (fold_left add_all rs s).
Proof.
  revert i s. induction rs as [|rd rs IH]; intros i s Hi Hpre Hall.
  - apply Forall2_nil_inv_r in Hall.
    apply (f_equal length) in Hall. rewrite length_drop in Hall. simpl in Hall.
    by replace i with (length s0) by lia.
  - apply Forall2_cons_inv_r in Hall as (d & tl & Hd & Hall & Hdrop).
    assert (s0 !! i = Some d) as Hlook.
    { rewrite <-(Nat.add_0_r i), <-lookup_drop, Hdrop. done. }
    assert (drop (S i) s0 = tl) as Htl.
    { rewrite (drop_S _ _ _ Hlook) in Hdrop. by injection Hdrop. }
    cbn [length Nat.add forEach fold_left].
    rewrite (prefix_lookup_Some _ _ _ _ Hlook Hpre), Hd.
    apply IH.
    + apply lookup_lt_Some in Hlook. lia.
    + etrans; [done|apply add_all_prefix].
    + by rewrite Htl.
Qed.

Lemma forEach_fold rec (n : nat) (s0 : list string) (rs : list (list string)) :
  Forall2 (λ d rd, rec d = Some rd) s0 rs →
  (∀ x, x ∈ fold_left add_all rs s0 →
        ∃ rx, rec x = Some rx ∧ rx ⊆ fold_left add_all rs s0) →
  length (fold_left add_all rs s0) ≤ n →
  forEach rec (length rs + n) 0 s0 = Some (fold_left add_all rs s0).
Proof.
  intros Hall Hcl Hn.
  rewrite (forEach_initial rec n 0 s0 s0 rs); [|lia|done|done].
  apply forEach_closed; [done|lia].
Qed.

(** *** The resolver *)

Lemma uniform_fuel (g : nat → string → option (list string))
    (l : list string) (rs : list (list string)) :
  (∀ f f' q r, f ≤ f' → g f q = Some r → g f' q = Some r) →
  Forall2 (λ d rd, ∃ f, g f d = Some rd) l rs →
  ∃ F, Forall2 (λ d rd, g F d = Some rd) l rs.
Proof.
  intros Hmono Hall. induction Hall as [|d rd l rs [f Hf] _ [F IH]].
  - by exists 0.
  - exists (f `max` F). constructor.
    + eapply Hmono; [|done]. lia.
    + eapply Forall2_impl; [done|]. intros ?? HF.
      eapply Hmono; [|exact HF]. lia.
Qed.

Section resolver_facts.
Variable useQuery : string → Query.
Local Abbreviation resolve := (getLinkedQueries useQuery).
Local Abbreviation closure := (linkedClosure useQuery).
Local Abbreviation direct := (directRefs useQuery).

Lemma getLinkedQueries_mono (f f' : nat) q r :
  f ≤ f' → resolve f q = Some r → resolve f' q = Some r.
Proof.
  revert f' q r. induction f as [|f IH]; intros f' q r Hle; [done|].
  destruct f' as [|f']; [lia|]. simpl. apply forEach_mono; [|lia].
  intros x rx. apply IH. lia.
Qed.

Lemma getLinkedQueries_det (f f' : nat) q r r' :
  resolve f q = Some r → resolve f' q = Some r' → r = r'.
Proof.
  intros H1 H2.
  apply (getLinkedQueries_mono _ (f `max` f')) in H1; [|lia].
  apply (getLinkedQueries_mono _ (f `max` f')) in H2; [|lia].
  congruence.
Qed.

(** The returned list is closed: the walk has visited every member. *)
Lemma getLinkedQueries_closed (f : nat) q r x :
  resolve f q = Some r → x ∈ r → ∃ rx, resolve f x = Some rx ∧ rx ⊆ r.
Proof.
  destruct f as [|f]; [done|]. intros Hrun Hx. simpl in Hrun.
  apply forEach_visited in Hrun as [_ Hvis].
  apply list_elem_of_lookup in Hx as [j Hj].
  destruct (Hvis j x) as (rx & Hrx & Hsub); [lia|done|].
  exists rx. split; [|done]. eapply getLinkedQueries_mono; [|done]. lia.
Qed.

Lemma fold_closed (f : nat) (s0 : list string) (rs : list (list string)) :
  Forall2 (λ d rd, resolve f d = Some rd) s0 rs →
  ∀ x, x ∈ fold_left add_all rs s0 →
       ∃ rx, resolve f x = Some rx ∧ rx ⊆ fold_left add_all rs s0.
Proof.
  intros Hall x [Hx|(rd & Hrd & Hx)]%elem_of_fold_add_all.
  - apply list_elem_of_lookup in Hx as [i Hi].
    destruct (Forall2_lookup_l _ _ _ _ _ Hall Hi) as (rx & Hrx & Hres).
    exists rx. split; [done|]. intros y Hy. apply elem_of_fold_add_all.
    right. exists rx. split; [by eapply list_elem_of_lookup_2|done].
  - apply list_elem_of_lookup in Hrd as [i Hi].
    destruct (Forall2_lookup_r _ _ _ _ _ Hall Hi) as (d & Hd & Hres).
    destruct (getLinkedQueries_closed _ _ _ _ Hres Hx) as (rx & Hrx & Hsub).
    exists rx. split; [done|]. intros y Hy. apply elem_of_fold_add_all.
    right. exists rd. split; [by eapply list_elem_of_lookup_2|by apply Hsub].
Qed.

(** A returned list is the direct references followed by what each direct
    reference contributed, in that order. *)
Lemma getLinkedQueries_direct (f : nat) q r :
  resolve (S f) q = Some r →
  ∃ rs, Forall2 (λ d rd, resolve f d = Some rd) (direct q) rs ∧
        r = fold_left add_all rs (direct q).
Proof.
  simpl. intros Hrun.
  destruct (forEach_visited _ _ _ _ _ Hrun) as [Hpre Hvis].
  assert (is_Some (mapM (resolve f) (direct q))) as [rs Hrs].
  { apply mapM_is_Some, Forall_forall. intros d Hd.
    apply (elem_of_prefix _ _ _ Hd) in Hpre.
    apply list_elem_of_lookup in Hpre as [j Hj].
    destruct (Hvis j d) as (rd & Hrd & _); [lia|done|].
    simpl. by rewrite Hrd. }
  apply mapM_Some in Hrs. exists rs. split; [done|].
  eapply forEach_det; [exact Hrun|].
  apply (forEach_fold _ (length (fold_left add_all rs (direct q)))); [done| |done].
  by apply fold_closed.
Qed.

Lemma getLinkedQueries_intro (f : nat) q (rs : list (list string)) :
  Forall2 (λ d rd, resolve f d = Some rd) (direct q) rs →
  ∃ F, resolve F q = Some (fold_left add_all rs (direct q)).
Proof.
  intros Hall.
  set (r := fold_left add_all rs (direct q)).
  set (F := f `max` (length rs + length r)).
  assert (Forall2 (λ d rd, resolve F d = Some rd) (direct q) rs) as HallF.
  { eapply Forall2_impl; [done|]. intros d rd.
    apply getLinkedQueries_mono. unfold F. lia. }
  exists (S F). simpl.
  eapply forEach_mono; [done| |apply (forEach_fold _ (length r)); [done| |done]].
  - unfold F. lia.
  - by apply fold_closed.
Qed.

Lemma linkedClosure_mono (f f' : nat) q r :
  f ≤ f' → closure f q = Some r → closure f' q = Some r.
Proof.
  revert f' q r. induction f as [|f IH]; intros f' q r Hle; [done|].
  destruct f' as [|f']; [lia|]. simpl.
  intros (rs & Hrs & Hr)%bind_Some. apply bind_Some. exists rs. split; [|done].
  apply mapM_Some. apply mapM_Some in Hrs.
  eapply Forall2_impl; [done|]. intros d rd. apply IH. lia.
Qed.

Lemma linkedClosure_unfold (f : nat) q r :
  closure (S f) q = Some r ↔
  ∃ rs, Forall2 (λ d rd, closure f d = Some rd) (direct q) rs ∧
        r = fold_left add_all rs (direct q).
Proof.
  simpl. rewrite bind_Some. split.
  - intros (rs & Hrs%mapM_Some & [= <-]). by exists rs.
  - intros (rs & Hrs%mapM_Some & ->). by exists rs.
Qed.

Lemma getLinkedQueries_linkedClosure (f : nat) q r :
  resolve f q = Some r → ∃ F, closure F q = Some r.
Proof.
  revert q r. induction f as [|f IH]; intros q r; [done|].
  intros (rs & Hall & ->)%getLinkedQueries_direct.
  destruct (uniform_fuel (linkedClosure useQuery) (direct q) rs) as [F HF].
  { apply linkedClosure_mono. }
  { eapply Forall2_impl; [done|]. intros d rd Hd. by apply IH. }
  exists (S F). apply linkedClosure_unfold. by exists rs.
Qed.

Lemma linkedClosure_getLinkedQueries (F : nat) q r :
  closure F q = Some r → ∃ f, resolve f q = Some r.
Proof.
  revert q r. induction F as [|F IH]; intros q r; [done|].
  intros (rs & Hall & ->)%linkedClosure_unfold.
  destruct (uniform_fuel (getLinkedQueries useQuery) (direct q) rs) as [f Hf].
  { apply getLinkedQueries_mono. }
  { eapply Forall2_impl; [done|]. intros d rd Hd. by apply IH. }
  by eapply getLinkedQueries_intro.
Qed.

(** *** Reachability and well-foundedness of the reference graph *)

Lemma linkedClosure_NoDup (F : nat) q r : closure F q = Some r → NoDup r.
Proof.
  destruct F as [|F]; [done|]. intros (rs & _ & ->)%linkedClosure_unfold.
  apply fold_add_all_NoDup, collect_NoDup.
Qed.

Lemma linkedClosure_reachable (F : nat) q r :
  closure F q = Some r → ∀ x, x ∈ r ↔ tc (references useQuery) q x.
Proof.
  revert q r. induction F as [|F IH]; intros q r; [done|].
  intros (rs & Hall & ->)%linkedClosure_unfold x.
  rewrite elem_of_fold_add_all. split.
  - intros [Hx|(rd & Hrd & Hx)]; [by apply tc_once|].
    apply list_elem_of_lookup in Hrd as [i Hi].
    destruct (Forall2_lookup_r _ _ _ _ _ Hall Hi) as (d & Hd & Hres).
    eapply tc_l; [by eapply list_elem_of_lookup_2|]. by eapply IH.
  - intros Hreach. inversion Hreach as [? ? Hedge|? d ? Hedge Hrest]; subst.
    { by left. }
    right. apply list_elem_of_lookup in Hedge as [i Hi].
    destruct (Forall2_lookup_l _ _ _ _ _ Hall Hi) as (rd & Hrd & Hres).
    exists rd. split; [by eapply list_elem_of_lookup_2|]. by eapply IH.
Qed.

Lemma linkedClosure_Acc (F : nat) q r :
  closure F q = Some r → Acc (flip (references useQuery)) q.
Proof.
  revert q r. induction F as [|F IH]; intros q r; [done|].
  intros (rs & Hall & ->)%linkedClosure_unfold.
  constructor. intros d Hd. apply list_elem_of_lookup in Hd as [i Hi].
  destruct (Forall2_lookup_l _ _ _ _ _ Hall Hi) as (rd & Hrd & Hres).
  by eapply IH.
Qed.

Lemma Acc_linkedClosure q :
  Acc (flip (references useQuery)) q → ∃ F r, closure F q = Some r.
Proof.
  induction 1 as [q _ IH].
  assert (∃ rs, Forall2 (λ d rd, ∃ F, closure F d = Some rd) (direct q) rs)
    as [rs Hrs].
  { assert (∀ l, l ⊆ direct q →
              ∃ rs, Forall2 (λ d rd, ∃ F, closure F d = Some rd) l rs) as Hl.
    { induction l as [|d l IHl]; intros Hsub; [by exists []|].
      destruct (IH d) as (F & rd & Hrd); [apply Hsub; left|].
      destruct IHl as [rs Hrs]; [intros y Hy; apply Hsub; by right|].
      exists (rd :: rs). constructor; [by exists F|done]. }
    by apply Hl. }
  apply uniform_fuel in Hrs as [F HF]; [|apply linkedClosure_mono].
  exists (S F), (fold_left add_all rs (direct q)).
  apply linkedClosure_unfold. by exists rs.
Qed.

(** A well-founded relation has no cycle. *)
Lemma Acc_no_cycle x :
  Acc (flip (references useQuery)) x → ¬ tc (references useQuery) x x.
Proof.
  induction 1 as [x Hacc IH]. intros Hcyc.
  inversion Hcyc as [? ? Hedge|? y ? Hedge Hrest]; subst.
  - apply (IH x Hedge). by apply tc_once.
  - apply (IH y Hedge). eapply tc_r; [exact Hrest|exact Hedge].
Qed.

Lemma Acc_reachable q x :
  Acc (flip (references useQuery)) q → tc (references useQuery) q x →
  Acc (flip (references useQuery)) x.
Proof.
  intros Hacc Hreach. induction Hreach as [q x Hedge|q y x Hedge _ IH].
  - by apply (Acc_inv Hacc).
  - apply IH. by apply (Acc_inv Hacc).
Qed.

(** A reference cycle at the start or downstream of it keeps the recursion
    from ever returning. *)
Lemma getLinkedQueries_cycle_diverges q x :
  q = x ∨ tc (references useQuery) q x → tc (references useQuery) x x →
  ∀ fuel, resolve fuel q = None.
Proof.
  intros Hqx Hcyc fuel. destruct (resolve fuel q) as [r|] eqn:Hrun; [|done].
  exfalso. apply getLinkedQueries_linkedClosure in Hrun as [F HF].
  apply linkedClosure_Acc in HF. apply (Acc_no_cycle x); [|done].
  destruct Hqx as [<-|Hreach]; [done|]. by eapply Acc_reachable.
Qed.

End resolver_facts.

(** *** Termination and dedup *)

(** C1 (amended): when the reference graph below the starting query is
    well-founded (no infinite chain of references, hence no reachable cycle),
    [getLinkedQueries] returns, and the returned list holds every query
    reachable through one or more references exactly once.  The dedup set is
    local to each call: it removes duplicates from the result but does not
    stop the recursion. *)
Theorem getLinkedQueries_terminates_wf (useQuery : string → Query) (q : string) :
  Acc (flip (references useQuery)) q →
  ∃ fuel r, getLinkedQueries useQuery fuel q = Some r ∧
            NoDup r ∧
            ∀ x, x ∈ r ↔ tc (references useQuery) q x.
Proof.
  intros (F & r & HF)%Acc_linkedClosure.
  destruct (linkedClosure_getLinkedQueries _ _ _ _ HF) as [fuel Hrun].
  exists fuel, r. split_and!; [done|by eapply linkedClosure_NoDup|].
  by eapply linkedClosure_reachable.
Qed.

Lemma getLinkedQueries_terminates_wf_witness :
  ∃ fuel r, getLinkedQueries (storeOf dagStore) fuel "orders" = Some r ∧
            NoDup r ∧
            ∀ x, x ∈ r ↔ tc (references (storeOf dagStore)) "orders" x.
Proof.
  apply getLinkedQueries_terminates_wf.
  apply (linkedClosure_Acc _ 3 _ ["customers"; "regions"]).
  vm_compute. reflexivity.
Defined.

(** C1, as stated, fails on a cyclic graph: with [a] reading from [b] and
    [b] reading from [a] the call for [a] never returns, whatever the bound
    on the recursion. *)
Lemma getLinkedQueries_cyclic_never_returns :
  ¬ ∃ fuel r, getLinkedQueries (storeOf cyclicStore) fuel "a" = Some r.
Proof.
  intros (fuel & r & Hrun).
  assert (directRefs (storeOf cyclicStore) "a" = ["b"]) as Ha
    by (vm_compute; reflexivity).
  assert (directRefs (storeOf cyclicStore) "b" = ["a"]) as Hb
    by (vm_compute; reflexivity).
  assert (tc (references (storeOf cyclicStore)) "a" "a") as Hcyc.
  { eapply tc_l; [|apply tc_once]; unfold references.
    - rewrite Ha. left.
    - rewrite Hb. left. }
  rewrite (getLinkedQueries_cycle_diverges _ "a" "a") in Hrun; [done| |done].
  by left.
Qed.

(** The call and the traversal of the specification return the same
    lists; what the first pass collects; what a returned list is made of. *)
Lemma getLinkedQueries_agrees_linkedClosure (useQuery : string → Query)
    (q : string) :
  (∀ r, (∃ fuel, getLinkedQueries useQuery fuel q = Some r) ↔
        (∃ fuel, linkedClosure useQuery fuel q = Some r)) ∧
  directRefs useQuery q =
    add_all [] (omap referencedQuery (effectiveOperations (useQuery q))) ∧
  (∀ x, x ∈ directRefs useQuery q ↔
        ∃ (i : nat) op t,
          currentOperations (useQuery q) !! i = Some op ∧
          ((-1 < activeEditIndex (useQuery q))%Z →
           (Z.of_nat i < activeEditIndex (useQuery q))%Z) ∧
          table op = Some t ∧ table_type t = Some "query" ∧ query_name t = x) ∧
  (∀ fuel r, getLinkedQueries useQuery (S fuel) q = Some r →
     ∃ rs, Forall2 (λ d rd, getLinkedQueries useQuery fuel d = Some rd)
                   (directRefs useQuery q) rs ∧
           r = fold_left add_all rs (directRefs useQuery q)).
Proof.
  split_and!.
  - intros r. split.
    + intros [fuel Hrun]. by eapply getLinkedQueries_linkedClosure.
    + intros [fuel Hrun]. by eapply linkedClosure_getLinkedQueries.
  - apply collect_add_all.
  - intros x. unfold directRefs. rewrite elem_of_collect. split.
    + intros (op & (i & Hi & Hidx)%elem_of_effectiveOperations
                 & (t & ? & ? & ?)%referencedQuery_Some).
      by exists i, op, t.
    + intros (i & op & t & Hi & Hidx & Ht & Hty & Hname). exists op. split.
      * apply elem_of_effectiveOperations. by exists i.
      * apply referencedQuery_Some. by exists t.
  - intros fuel r. apply getLinkedQueries_direct.
Qed.
(** C6 (amended): for every query below which the reference graph is
    well-founded, [getLinkedQueries] returns, and what it returns is what the
    traversal of the specification returns: the queries collected from the
    effective operation list (the current operations, cut at the active edit
    index when it is above -1; collected are the [query_name]s of the
    operations with [table.type = 'query'], in order of first occurrence),
    followed by what the call returns for each collected query, accumulated in
    the dedup set and listed in insertion order.  The answer does not depend
    on the bound of the recursion. *)
Theorem getLinkedQueries_returns_linkedClosure (useQuery : string → Query)
    (q : string) :
  Acc (flip (references useQuery)) q →
  ∃ fuel r rs,
    getLinkedQueries useQuery fuel q = Some r ∧
    linkedClosure useQuery fuel q = Some r ∧
    (∀ fuel' r', getLinkedQueries useQuery fuel' q = Some r' → r' = r) ∧
    directRefs useQuery q =
      add_all [] (omap referencedQuery (effectiveOperations (useQuery q))) ∧
    (∀ x, x ∈ directRefs useQuery q ↔
          ∃ (i : nat) op t,
            currentOperations (useQuery q) !! i = Some op ∧
            ((-1 < activeEditIndex (useQuery q))%Z →
             (Z.of_nat i < activeEditIndex (useQuery q))%Z) ∧
            table op = Some t ∧ table_type t = Some "query" ∧ query_name t = x) ∧
    Forall2 (λ d rd, getLinkedQueries useQuery fuel d = Some rd)
            (directRefs useQuery q) rs ∧
    r = fold_left add_all rs (directRefs useQuery q).
Proof.
  intros (F & r & HF)%Acc_linkedClosure.
  destruct (linkedClosure_getLinkedQueries _ _ _ _ HF) as [f Hrun].
  set (fuel := S (f `max` F)).
  assert (getLinkedQueries useQuery fuel q = Some r) as Hfuel.
  { eapply getLinkedQueries_mono; [|done]. unfold fuel. lia. }
  destruct (getLinkedQueries_agrees_linkedClosure useQuery q)
    as (_ & Hcollect & Hdirect & Hparts).
  destruct (Hparts _ _ Hfuel) as (rs & Hrs & Hr).
  exists fuel, r, rs. split_and!; try done.
  - eapply linkedClosure_mono; [|done]. unfold fuel. lia.
  - intros fuel' r' Hrun'. by eapply getLinkedQueries_det.
  - eapply Forall2_impl; [done|]. intros d rd.
    apply getLinkedQueries_mono. unfold fuel. lia.
Qed.

Lemma getLinkedQueries_returns_linkedClosure_witness :
  ∃ fuel r rs,
    getLinkedQueries (storeOf dagStore) fuel "customers" = Some r ∧
    linkedClosure (storeOf dagStore) fuel "customers" = Some r ∧
    (∀ fuel' r', getLinkedQueries (storeOf dagStore) fuel' "customers" = Some r' →
                 r' = r) ∧
    directRefs (storeOf dagStore) "customers" =
      add_all [] (omap referencedQuery
                    (effectiveOperations (storeOf dagStore "customers"))) ∧
    (∀ x, x ∈ directRefs (storeOf dagStore) "customers" ↔
          ∃ (i : nat) op t,
            currentOperations (storeOf dagStore "customers") !! i = Some op ∧
            ((-1 < activeEditIndex (storeOf dagStore "customers"))%Z →
             (Z.of_nat i < activeEditIndex (storeOf dagStore "customers"))%Z) ∧
            table op = Some t ∧ table_type t = Some "query" ∧ query_name t = x) ∧
    Forall2 (λ d rd, getLinkedQueries (storeOf dagStore) fuel d = Some rd)
            (directRefs (storeOf dagStore) "customers") rs ∧
    r = fold_left add_all rs (directRefs (storeOf dagStore) "customers").
Proof.
  apply getLinkedQueries_returns_linkedClosure.
  apply (linkedClosure_Acc _ 2 _ ["regions"]).
  vm_compute. reflexivity.
Defined.

(** C6, as stated, fails for a query that reads from itself: the call
    collects the query's own name and recurses into it without end, so no
    list is returned, whatever the bound on the recursion. *)
Lemma getLinkedQueries_self_reference_never_returns :
  directRefs (storeOf selfStore) "totals" = ["totals"] ∧
  ¬ ∃ fuel r, getLinkedQueries (storeOf selfStore) fuel "totals" = Some r.
Proof.
  assert (directRefs (storeOf selfStore) "totals" = ["totals"]) as Hself
    by (vm_compute; reflexivity).
  split; [done|]. intros (fuel & r & Hrun).
  rewrite (getLinkedQueries_cycle_diverges _ "totals" "totals") in Hrun;
    [done|by left|].
  apply tc_once. unfold references. rewrite Hself. left.
Qed.

(** *** Further properties of the resolver *)

Lemma forEach_ext rec rec' (n i : nat) (s : list string) :
  (∀ x, rec x = rec' x) → forEach rec n i s = forEach rec' n i s.
Proof.
  intros Hrec. revert i s. induction n as [|n IH]; intros i s; simpl.
  - done.
  - destruct (s !! i) as [x|]; [|done]. rewrite <-Hrec.
    destruct (rec x); [apply IH|done].
Qed.

Lemma getLinkedQueries_ext (useQuery useQuery' : string → Query) (fuel : nat) q :
  (∀ x, directRefs useQuery x = directRefs useQuery' x) →
  getLinkedQueries useQuery fuel q = getLinkedQueries useQuery' fuel q.
Proof.
  intros Hdirect. revert q. induction fuel as [|fuel IH]; intros q; [done|].
  simpl. rewrite Hdirect. by apply forEach_ext.
Qed.

(** X3: [getLinkedQueries] returns for a query exactly when no infinite
    chain of references starts at it; a query that lies on a reference cycle
    or reaches one (a query that reads from itself included) never gets an
    answer. *)
Theorem getLinkedQueries_returns_iff_wf (useQuery : string → Query) (q : string) :
  ((∃ fuel r, getLinkedQueries useQuery fuel q = Some r) ↔
   Acc (flip (references useQuery)) q) ∧
  (∀ x, q = x ∨ tc (references useQuery) q x →
        tc (references useQuery) x x →
        ∀ fuel, getLinkedQueries useQuery fuel q = None).
Proof.
  split; [split|].
  - intros (fuel & r & Hrun).
    apply getLinkedQueries_linkedClosure in Hrun as [F HF].
    by eapply linkedClosure_Acc.
  - intros (F & r & HF)%Acc_linkedClosure.
    apply linkedClosure_getLinkedQueries in HF as [fuel Hrun]. by exists fuel, r.
  - intros x. apply getLinkedQueries_cycle_diverges.
Qed.

(** X4: a returned list never contains the query the call started from. *)
Theorem getLinkedQueries_excludes_start (useQuery : string → Query)
    (fuel : nat) (q : string) (r : list string) :
  getLinkedQueries useQuery fuel q = Some r → q ∉ r.
Proof.
  intros Hrun Hq.
  apply getLinkedQueries_linkedClosure in Hrun as [F HF].
  apply (Acc_no_cycle useQuery q); [by eapply linkedClosure_Acc|].
  by apply (linkedClosure_reachable _ _ _ _ HF).
Qed.

Lemma getLinkedQueries_excludes_start_witness :
  "orders" ∉ ["customers"; "regions"].
Proof.
  apply (getLinkedQueries_excludes_start (storeOf dagStore) 5 "orders").
  vm_compute. reflexivity.
Defined.

(** X5: a returned list starts with the queries the starting query reads
    from directly, in the order of their first use, and it is closed: the
    call for any of its members returns a list whose members are all in
    it. *)
Theorem getLinkedQueries_prefix_closed (useQuery : string → Query)
    (fuel : nat) (q : string) (r : list string) :
  getLinkedQueries useQuery fuel q = Some r →
  directRefs useQuery q `prefix_of` r ∧
  ∀ x, x ∈ r → ∃ rx, getLinkedQueries useQuery fuel x = Some rx ∧ rx ⊆ r.
Proof.
  intros Hrun. split.
  - destruct fuel as [|f]; [done|].
    apply getLinkedQueries_direct in Hrun as (rs & _ & ->).
    apply fold_add_all_prefix.
  - intros x Hx. by eapply getLinkedQueries_closed.
Qed.

Lemma getLinkedQueries_prefix_closed_witness :
  directRefs (storeOf dagStore) "orders" `prefix_of` ["customers"; "regions"] ∧
  ∀ x, x ∈ ["customers"; "regions"] →
       ∃ rx, getLinkedQueries (storeOf dagStore) 5 x = Some rx ∧
             rx ⊆ ["customers"; "regions"].
Proof.
  apply (getLinkedQueries_prefix_closed (storeOf dagStore) 5 "orders").
  vm_compute. reflexivity.
Defined.

(** X6: the call returns the empty list exactly when no effective operation
    of the query reads from a query; that is the case when the active edit
    index is 0 and when no current operation has a table of type query. *)
Theorem getLinkedQueries_empty_iff (useQuery : string → Query) (q : string) :
  (∀ fuel, getLinkedQueries useQuery (S fuel) q = Some [] ↔
           directRefs useQuery q = []) ∧
  (activeEditIndex (useQuery q) = 0%Z ∨
   Forall (λ op, referencedQuery op = None) (currentOperations (useQuery q)) →
   directRefs useQuery q = []).
Proof.
  split.
  - intros fuel. split.
    + intros Hrun. apply getLinkedQueries_direct in Hrun as (rs & _ & Hr).
      apply prefix_nil_inv. rewrite Hr. apply fold_add_all_prefix.
    + intros Hnone. simpl. rewrite Hnone. by destruct fuel.
  - intros Hq. apply elem_of_nil_inv. intros x Hx.
    apply elem_of_collect in Hx as (op & Hop & Href).
    destruct Hq as [Hzero|Hnone].
    + unfold effectiveOperations in Hop. rewrite Hzero in Hop. simpl in Hop.
      by apply elem_of_nil in Hop.
    + apply elem_of_effectiveOperations in Hop as (i & Hi & _).
      rewrite (proj1 (Forall_forall _ _) Hnone op) in Href; [done|].
      by eapply list_elem_of_lookup_2.
Qed.

(** X7: only the effective operations count.  Replacing a query object by
    one with the same effective operations (other operations at or after the
    active edit index, another [isloaded]) changes no answer, for any
    starting query. *)
Theorem getLinkedQueries_effective_only (useQuery : string → Query)
    (name : string) (changed : Query) (fuel : nat) (q : string) :
  effectiveOperations changed = effectiveOperations (useQuery name) →
  getLinkedQueries (withQuery useQuery name changed) fuel q =
  getLinkedQueries useQuery fuel q.
Proof.
  intros Hsame. apply getLinkedQueries_ext. intros x.
  unfold directRefs, withQuery. case_decide as Hx; [|done]. by rewrite Hsame, Hx.
Qed.

Lemma getLinkedQueries_effective_only_witness :
  let changed :=
    {| isloaded := false;
       currentOperations := [queryOp "source" "regions"; plainOp "select";
                             queryOp "join" "orders"; plainOp "limit"];
       activeEditIndex := 2 |} in
  getLinkedQueries (withQuery (storeOf dagStore) "customers" changed) 5 "orders" =
  getLinkedQueries (storeOf dagStore) 5 "orders".
Proof.
  intros changed.
  apply (getLinkedQueries_effective_only (storeOf dagStore) "customers" changed).
  vm_compute. reflexivity.
Defined.

End LinkedFacts.

(** ** Build configuration: the index.html transform *)

Module ViteConfigFacts.
Import ViteConfig.

Example transformIndexHtml_build :
  transformIndexHtml "<body><p>x</p></body></html>" false =
  "<body><p>x</p>" +:+ bootScript +:+ "</html>".
Proof. vm_compute. reflexivity. Qed.

Example bootScript_is_literal :
  forallb (λ c, negb (Ascii.eqb c "$"%char)) (String.list_ascii_of_string bootScript) = true.
Proof. vm_compute. reflexivity. Qed.

Lemma append_cons c (a b : string) : String c a +:+ b = String c (a +:+ b).
Proof. done. Qed.

Lemma stripPrefix_Some (pat s rest : string) :
  stripPrefix pat s = Some rest ↔ s = pat +:+ rest.
Proof.
  revert s. induction pat as [|a pat IH]; intros s.
  - simpl. split; [by intros [= ->]|by intros ->].
  - rewrite append_cons. destruct s as [|b s]; simpl; [done|].
    case_decide as Hab.
    + subst. rewrite IH. split; [by intros ->|by intros [= ->]].
    + split; [done|]. intros [= ? ?]. by subst.
Qed.

Lemma replaceFirst_here (pat rep s rest : string) :
  stripPrefix pat s = Some rest → replaceFirst pat rep s = rep +:+ rest.
Proof. intros Hstrip. destruct s; simpl; by rewrite Hstrip. Qed.

Lemma replaceFirst_absent (pat rep s : string) :
  (∀ a b, s ≠ a +:+ pat +:+ b) → replaceFirst pat rep s = s.
Proof.
  induction s as [|c s IH]; intros Habsent.
  - simpl. destruct (stripPrefix pat "") as [rest|] eqn:Hstrip; [|done].
    apply stripPrefix_Some in Hstrip. by destruct (Habsent "" rest).
  - simpl. destruct (stripPrefix pat (String c s)) as [rest|] eqn:Hstrip.
    + apply stripPrefix_Some in Hstrip. by destruct (Habsent "" rest).
    + f_equal. apply IH. intros a b ->. by apply (Habsent (String c a) b).
Qed.

Lemma replaceFirst_leftmost (pat rep a b : string) :
  (∀ a' b', a +:+ pat +:+ b = a' +:+ pat +:+ b' →
            String.length a ≤ String.length a') →
  replaceFirst pat rep (a +:+ pat +:+ b) = a +:+ rep +:+ b.
Proof.
  induction a as [|c a IH]; intros Hleft.
  - change ("" +:+ pat +:+ b) with (pat +:+ b).
    change ("" +:+ rep +:+ b) with (rep +:+ b).
    by apply replaceFirst_here, stripPrefix_Some.
  - rewrite !append_cons. simpl.
    destruct (stripPrefix pat (String c (a +:+ pat +:+ b))) as [rest|] eqn:Hstrip.
    + apply stripPrefix_Some in Hstrip.
      specialize (Hleft "" rest). rewrite !append_cons in Hleft.
      specialize (Hleft Hstrip). simpl in Hleft. lia.
    + f_equal. apply IH. intros a' b' Heq.
      specialize (Hleft (String c a') b'). rewrite !append_cons in Hleft.
      rewrite Heq in Hleft. specialize (Hleft eq_refl). simpl in Hleft. lia.
Qed.

(** X19: [transformIndexHtml] returns the page as it is when the dev server
    is running and when the page has no closing body tag.  In a build it puts
    the boot script in place of the first closing body tag, and since the
    script ends with a closing body tag of its own, what came before and
    after that tag is kept as it was. *)
Theorem transformIndexHtml_spec (html : string) :
  transformIndexHtml html true = html ∧
  ((∀ a b, html ≠ a +:+ "</body>" +:+ b) → transformIndexHtml html false = html) ∧
  (∀ a b, html = a +:+ "</body>" +:+ b →
          (∀ a' b', html = a' +:+ "</body>" +:+ b' →
                    String.length a ≤ String.length a') →
          transformIndexHtml html false = a +:+ bootScript +:+ b).
Proof.
  split_and!.
  - done.
  - intros Habsent. by apply replaceFirst_absent.
  - intros a b -> Hleft. by apply replaceFirst_leftmost.
Qed.

End ViteConfigFacts.
